(** * video2x: the video decoder thread (video2x/decoder.py)

    A shallow embedding of [VideoDecoder]: the constructor that launches the
    external decode process, the [run] loop that deframes its raw RGB output
    into paired images and publishes them on the processing queue, and
    [stop].  Python integers are [Z], byte strings are [list byte], the
    object's attributes are the fields of a record, and the collaborators the
    class only talks to (the process's output pipe, the queue, the logger)
    are explicit state. *)

From Stdlib Require Import ZArith NArith List String Ascii Bool Lia Arith.
From Stdlib Require Import Init.Byte.
Import ListNotations.
Local Open Scope string_scope.
Local Open Scope list_scope.
Local Open Scope Z_scope.

(** ** Exceptions *)

(** The two handlers of [run] tell three kinds of exception apart: instances
    of [ValueError], other instances of [Exception], and the rest of
    [BaseException], which neither handler catches. *)
Inductive PyExcClass := ValueError_cls | Exception_cls | BaseException_cls.

Record PyExc := mkExc { exc_class : PyExcClass; exc_text : string }.

Definition ValueError (msg : string) : PyExc := mkExc ValueError_cls msg.

Inductive Result (A : Type) : Type :=
| Ok (a : A)
| Raise (e : PyExc).
Arguments Ok {A} a.
Arguments Raise {A} e.

(** ** The log level table *)

Definition LOGURU_FFMPEG_LOGLEVELS : list (string * string) :=
  [ ("trace", "trace");
    ("debug", "debug");
    ("info", "info");
    ("success", "info");
    ("warning", "warning");
    ("error", "error");
    ("critical", "fatal") ].

(** [dict.get(key)] with no default: [None] when the key is absent. *)
Fixpoint dict_get (d : list (string * string)) (key : string) : option string :=
  match d with
  | [] => None
  | (k, v) :: rest => if String.eqb k key then Some v else dict_get rest key
  end.

(** [dict.get(key, default)], as used on [os.environ]. *)
Definition dict_get_default (d : list (string * string)) (key default : string)
  : string :=
  match dict_get d key with
  | Some v => v
  | None => default
  end.

(** [str.lower]: the capitals A to Z become small letters; a level name is
    ASCII text. *)
Definition lower_ascii (c : ascii) : ascii :=
  let n := nat_of_ascii c in
  if (Nat.leb 65 n && Nat.leb n 90)%bool then ascii_of_nat (n + 32) else c.

Fixpoint lower (s : string) : string :=
  match s with
  | EmptyString => EmptyString
  | String c rest => String (lower_ascii c) (lower rest)
  end.

(** The value passed after [-loglevel]: a Python string or [None]. *)
Definition loglevel_arg (environ : list (string * string)) : option string :=
  dict_get LOGURU_FFMPEG_LOGLEVELS
           (lower (dict_get_default environ "LOGURU_LEVEL" "INFO")).

(** ** Images *)

(** An RGB image as the imaging library holds it: a size and one (r, g, b)
    triple per pixel, rows first. *)
Record Image := mkImage {
  im_mode : string;
  im_size : Z * Z;
  im_pixels : list (byte * byte * byte)
}.

Fixpoint unpack_rgb (data : list byte) : list (byte * byte * byte) :=
  match data with
  | r :: g :: b :: rest => (r, g, b) :: unpack_rgb rest
  | _ => []
  end.

Definition pack_rgb (px : list (byte * byte * byte)) : list byte :=
  flat_map (fun p => match p with (r, g, b) => [r; g; b] end) px.

(** The imaging library is not part of the repository; [run] makes one call
    into it, embedded here as the library documents it.

    [Image.frombytes("RGB", (width, height), data)] with the raw decoder:
    a negative side is refused, data that does not fill every row is "not
    enough image data", and the decoder stops once the last row is filled,
    so bytes beyond [3 * width * height] are not looked at. *)
Definition Image_frombytes (width height : Z) (data : list byte)
  : Result Image :=
  if ((width <? 0) || (height <? 0))%bool then
    Raise (ValueError "Width and height must be >= 0")
  else if Z.of_nat (List.length data) <? 3 * width * height then
    Raise (ValueError "not enough image data")
  else
    Ok (mkImage "RGB" (width, height)
                (unpack_rgb (firstn (Z.to_nat (3 * width * height)) data))).

(** [Image.tobytes()]. *)
Definition Image_tobytes (im : Image) : list byte := pack_rgb (im_pixels im).

(** ** The logger *)

Inductive LogRecord :=
| LogDebug (msg : string)
| LogException (e : PyExc).

Section Decoder.

(** [processing_settings] is handed through untouched; its type is the
    caller's business.  The same holds for the [frame_rate] value. *)
Variable Settings : Type.
Variable FrameRate : Type.

(** ** The work queue *)

(** The item put on the queue: the 3-tuple
    [(frame_index, (previous_image, image), processing_settings)]. *)
Definition WorkItem : Type := Z * (Image * Image) * Settings.

(** The queue is a FIFO of the items put so far.  [put_fault] says whether
    a [put] on the current contents raises instead of storing the item; a
    plain [queue.Queue] never does. *)
Record Queue := mkQueue {
  items : list WorkItem;
  put_fault : list WorkItem -> option PyExc
}.

Definition put (item : WorkItem) (q : Queue) : Result Queue :=
  match put_fault q (items q) with
  | Some e => Raise e
  | None => Ok (mkQueue (items q ++ [item]) (put_fault q))
  end.

(** ** The external process *)

(** The read end of the process's standard output: the bytes the process
    still delivers before it closes the pipe, and [read_fault], which says
    whether a read faults when those bytes are what is left. *)
Record Pipe := mkPipe {
  pending : list byte;
  read_fault : list byte -> option PyExc
}.

(** The largest value of the interpreter's index type ([sys.maxsize] on a
    64-bit build). *)
Definition PY_SSIZE_T_MAX : Z := 2 ^ 63 - 1.

Definition overflow_error : PyExc :=
  mkExc Exception_cls
        "OverflowError: cannot fit 'int' into an index-sized integer".

(** [stdout.read(size)] on the buffered reader.  The size must fit the
    interpreter's index type, or the call raises [OverflowError]; a size
    below [-1] is refused with a [ValueError], and [-1] reads everything.
    Otherwise the call blocks until [size] bytes have arrived or the stream
    has ended, so a short result means end of stream.  [read_fault] stands
    for what the environment makes of the read: an I/O error, or no memory
    for a buffer of that size. *)
Definition read (size : Z) (p : Pipe) : Result (list byte * Pipe) :=
  if ((size <? - PY_SSIZE_T_MAX - 1) || (PY_SSIZE_T_MAX <? size))%bool then
    Raise overflow_error
  else if size <? -1 then
    Raise (ValueError "read length must be non-negative or -1")
  else
    match read_fault p (pending p) with
    | Some e => Raise e
    | None =>
        if size =? -1 then Ok (pending p, mkPipe [] (read_fault p))
        else Ok (firstn (Z.to_nat size) (pending p),
                 mkPipe (skipn (Z.to_nat size) (pending p)) (read_fault p))
    end.

(** The [subprocess.Popen] handle: its output pipe, the number of unread
    bytes the pipe has room for, and whether [wait] has returned for it. *)
Record Popen := mkPopen {
  stdout : Pipe;
  pipe_room : N;
  waited : bool
}.

(** [Popen.wait()] returns when the child has exited.  The child exits once
    it has written all of its output, and it can write no more than the pipe
    has room for: while more than [pipe_room] bytes of its output are unread
    it stays blocked in its write and [wait] does not return ([None]). *)
Definition wait (p : Popen) : option Popen :=
  if (N.of_nat (List.length (pending (stdout p))) <=? pipe_room p)%N then
    Some (mkPopen (stdout p) (pipe_room p) true)
  else None.

(** The command handed to [ffmpeg.compile]: one input with its rate, the
    video stream, one output with its options, the global arguments in the
    order they are added, and the overwrite flag. *)
Record Command := mkCommand {
  cmd_input : string;
  cmd_input_r : FrameRate;
  cmd_stream : string;
  cmd_output : string;
  cmd_format : string;
  cmd_pix_fmt : string;
  cmd_vsync : string;
  cmd_global_args : list (option string);
  cmd_overwrite_output : bool
}.

(** ** The decoder object *)

(** The attributes of a [VideoDecoder]; [logger] is the module's log sink,
    kept with the object so that one value holds all the state [run]
    writes. *)
Record VideoDecoder := mkDecoder {
  running : bool;
  input_path : string;
  input_width : Z;
  input_height : Z;
  processing_queue : Queue;
  processing_settings : Settings;
  exception : option PyExc;
  decoder : Popen;
  logger : list LogRecord
}.

Definition set_running (b : bool) (d : VideoDecoder) : VideoDecoder :=
  mkDecoder b (input_path d) (input_width d) (input_height d)
            (processing_queue d) (processing_settings d) (exception d)
            (decoder d) (logger d).

Definition set_exception (e : option PyExc) (d : VideoDecoder) : VideoDecoder :=
  mkDecoder (running d) (input_path d) (input_width d) (input_height d)
            (processing_queue d) (processing_settings d) e
            (decoder d) (logger d).

Definition set_processing_queue (q : Queue) (d : VideoDecoder) : VideoDecoder :=
  mkDecoder (running d) (input_path d) (input_width d) (input_height d)
            q (processing_settings d) (exception d)
            (decoder d) (logger d).

Definition set_decoder (p : Popen) (d : VideoDecoder) : VideoDecoder :=
  mkDecoder (running d) (input_path d) (input_width d) (input_height d)
            (processing_queue d) (processing_settings d) (exception d)
            p (logger d).

Definition log (r : LogRecord) (d : VideoDecoder) : VideoDecoder :=
  mkDecoder (running d) (input_path d) (input_width d) (input_height d)
            (processing_queue d) (processing_settings d) (exception d)
            (decoder d) (logger d ++ [r]).

(** *** [__init__] *)

Definition decode_command (environ : list (string * string))
    (path : string) (frame_rate : FrameRate) : Command :=
  mkCommand path frame_rate "v" "pipe:1" "rawvideo" "rgb24" "1"
            [ Some "-hide_banner"; Some "-nostats";
              Some "-loglevel"; loglevel_arg environ ]
            true.

Definition type_error : PyExc :=
  mkExc Exception_cls
        "TypeError: expected str, bytes or os.PathLike object, not NoneType".

(** [subprocess.Popen(args, stdout=PIPE)].  An argument that is [None] is
    refused with a [TypeError] before anything is launched.  Otherwise
    [popen] is the operating system's answer: the new process's output pipe
    with the room it has, or the exception the launch raises. *)
Definition subprocess_Popen (popen : Command -> Result (Pipe * N))
    (cmd : Command) : Result Popen :=
  if existsb (fun arg => match arg with None => true | Some _ => false end)
             (cmd_global_args cmd)
  then Raise type_error
  else
    match popen cmd with
    | Raise e => Raise e
    | Ok (out, room) => Ok (mkPopen out room false)
    end.

(** The constructor.  An exception of the launch leaves the constructor, so
    the caller gets no object.  (The [ignore_max_image_pixels] switch is in
    [construct] below.) *)
Definition init (environ : list (string * string))
    (popen : Command -> Result (Pipe * N))
    (path : string) (width height : Z) (frame_rate : FrameRate)
    (queue : Queue) (settings : Settings) : Result VideoDecoder :=
  match subprocess_Popen popen (decode_command environ path frame_rate) with
  | Raise e => Raise e
  | Ok process =>
      Ok (mkDecoder false path width height queue settings None process [])
  end.

(** *** [run] *)

(** The object together with the local variables of [run]. *)
Record Locals := mkLocals {
  self : VideoDecoder;
  frame_index : Z;
  previous_image : option Image
}.

Definition on_self (f : VideoDecoder -> VideoDecoder) (st : Locals) : Locals :=
  mkLocals (f (self st)) (frame_index st) (previous_image st).

(** How one pass through the loop body ends: at the end of the body, at a
    [break], or with an exception on its way out. *)
Inductive Flow :=
| Next (st : Locals)
| Break (st : Locals)
| Throw (e : PyExc) (st : Locals).

(** The body of the [try]. *)
Definition try_block (st : Locals) : Flow :=
  let d := self st in
  match read (3 * input_width d * input_height d) (stdout (decoder d)) with
  | Raise e => Throw e st
  | Ok (buffer, out) =>
      let st1 :=
        on_self (set_decoder (mkPopen out (pipe_room (decoder d))
                                      (waited (decoder d)))) st in
      if Nat.eqb (List.length buffer) 0 then
        Break (on_self (log (LogDebug "Decoding queue depleted")) st1)
      else
        match Image_frombytes (input_width d) (input_height d) buffer with
        | Raise e => Throw e st1
        | Ok image =>
            let enqueued :=
              match previous_image st1 with
              | Some previous =>
                  put (frame_index st1, (previous, image), processing_settings d)
                      (processing_queue d)
              | None => Ok (processing_queue d)
              end in
            match enqueued with
            | Raise e => Throw e st1
            | Ok q =>
                Next (mkLocals (set_processing_queue q (self st1))
                               (frame_index st1 + 1)
                               (Some image))
            end
        end
  end.

(** The [try] with its two handlers. *)
Definition loop_body (st : Locals) : Flow :=
  match try_block st with
  | Throw e st' =>
      match exc_class e with
      | ValueError_cls => Break (on_self (log (LogException e)) st')
      | Exception_cls =>
          Break (on_self (log (LogException e))
                         (on_self (set_exception (Some e)) st'))
      | BaseException_cls => Throw e st'
      end
  | flow => flow
  end.

(** How the [while] ends: the loop was left, or an exception left it. *)
Inductive LoopEnd :=
| Left (st : Locals)
| Uncaught (e : PyExc) (st : Locals).

(** [while self.running: ...], with a bound on the number of passes; [None]
    when the bound is used up. *)
Fixpoint while_running (fuel : nat) (st : Locals) : option LoopEnd :=
  match fuel with
  | O => None
  | S fuel' =>
      if running (self st) then
        match loop_body st with
        | Next st' => while_running fuel' st'
        | Break st' => Some (Left st')
        | Throw e st' => Some (Uncaught e st')
        end
      else Some (Left st)
  end.

(** What becomes of a call of [run]: it returned, an exception left it, or
    it is in [self.decoder.wait()] for good; each with the object as the
    call left it. *)
Inductive Outcome :=
| Returned (d : VideoDecoder)
| Propagated (e : PyExc) (d : VideoDecoder)
| Blocked (d : VideoDecoder).

Definition enter (d : VideoDecoder) : Locals :=
  mkLocals (set_running true d) 0 None.

(** [self.decoder.wait()] and the log line after it; [None] when the wait
    does not return. *)
Definition reap (d : VideoDecoder) : option VideoDecoder :=
  match wait (decoder d) with
  | Some process =>
      Some (log (LogDebug "Decoder thread exiting") (set_decoder process d))
  | None => None
  end.

(** From the end of the loop to the return. *)
Definition leave (d : VideoDecoder) : option VideoDecoder :=
  match reap d with
  | Some d' => Some (set_running false d')
  | None => None
  end.

(** The output the process has not delivered yet fits the pipe, so that
    the process can exit and [wait] return. *)
Definition unread_fits (d : VideoDecoder) : Prop :=
  (N.of_nat (List.length (pending (stdout (decoder d))))
   <= pipe_room (decoder d))%N.

(** The object as a return of [run] leaves it, from the object at the end
    of the loop. *)
Definition returned_from (d : VideoDecoder) : VideoDecoder :=
  set_running false
    (log (LogDebug "Decoder thread exiting")
         (set_decoder (mkPopen (stdout (decoder d)) (pipe_room (decoder d))
                               true) d)).

(** Every pass that reaches the end of the body has taken at least one byte
    from the pipe, so one pass more than there are bytes is enough. *)
Definition passes (d : VideoDecoder) : nat :=
  S (List.length (pending (stdout (decoder d)))).

Definition run (d : VideoDecoder) : option Outcome :=
  match while_running (passes d) (enter d) with
  | None => None
  | Some (Left st) =>
      match leave (self st) with
      | Some d' => Some (Returned d')
      | None => Some (Blocked (self st))
      end
  | Some (Uncaught e st) => Some (Propagated e (self st))
  end.

(** *** [stop] *)

Definition stop (d : VideoDecoder) : VideoDecoder := set_running false d.

(** ** The loop thread next to its owner *)

(** [run] executes on its own thread while the owner may call [stop] at any
    moment.  The only attribute both sides touch is [running]: [run] writes
    it on entry and before returning and reads it in the loop condition,
    [stop] writes it.  The thread is therefore cut at those accesses; what
    lies between two of them is one step.  The body of the loop is such a
    step: it neither reads nor writes the flag, so a [stop] that lands in
    the middle of a pass leaves the thread where a [stop] just before or
    just after the pass leaves it, and of the two the one before the pass
    has the most of the pass still to come. *)
Inductive Pc :=
| PcEntry            (* [run] called, nothing executed yet *)
| PcWhile            (* about to evaluate [while self.running] *)
| PcBody             (* condition held, about to execute the [try] *)
| PcWait             (* loop left, about to return from [self.decoder.wait()] *)
| PcFinish           (* about to clear [self.running] and return *)
| PcDone             (* [run] has returned *)
| PcRaised (e : PyExc). (* an exception has left [run] *)

Record Thread := mkThread {
  pc : Pc;
  frame : Locals
}.

(** The thread as [start] leaves it; the locals get their values on entry. *)
Definition spawn (d : VideoDecoder) : Thread :=
  mkThread PcEntry (mkLocals d 0 None).

Definition thread_step (t : Thread) : Thread :=
  match pc t with
  | PcEntry => mkThread PcWhile (enter (self (frame t)))
  | PcWhile =>
      if running (self (frame t)) then mkThread PcBody (frame t)
      else mkThread PcWait (frame t)
  | PcBody =>
      match loop_body (frame t) with
      | Next st => mkThread PcWhile st
      | Break st => mkThread PcWait st
      | Throw e st => mkThread (PcRaised e) st
      end
  | PcWait =>
      match reap (self (frame t)) with
      | Some d => mkThread PcFinish (on_self (fun _ => d) (frame t))
      | None => t
      end
  | PcFinish => mkThread PcDone (on_self (set_running false) (frame t))
  | PcDone => t
  | PcRaised _ => t
  end.

(** [stop] called by the owner while the thread is wherever it is. *)
Definition owner_stop (t : Thread) : Thread :=
  mkThread (pc t) (on_self stop (frame t)).

(** A schedule lists who moves next. *)
Inductive Event := Tick | StopCall.

Definition move (ev : Event) (t : Thread) : Thread :=
  match ev with
  | Tick => thread_step t
  | StopCall => owner_stop t
  end.

Fixpoint exec (sched : list Event) (t : Thread) : Thread :=
  match sched with
  | [] => t
  | ev :: rest => exec rest (move ev t)
  end.

(** The items on the queue a thread publishes to. *)
Definition published (t : Thread) : list WorkItem :=
  items (processing_queue (self (frame t))).

(** The thread's collaborators as it has left them: the queue and the
    pipe. *)
Definition traffic (t : Thread) : Queue * Pipe :=
  (processing_queue (self (frame t)), stdout (decoder (self (frame t)))).

(** How many items the pass in flight may still publish. *)
Definition in_flight (p : Pc) : nat :=
  match p with
  | PcBody => 1%nat
  | _ => 0%nat
  end.

(** Steps the thread needs at most from where it is. *)
Definition steps_left (t : Thread) : nat :=
  let n := List.length (pending (stdout (decoder (self (frame t))))) in
  match pc t with
  | PcEntry => 2 * n + 5
  | PcWhile => 2 * n + 4
  | PcBody => 2 * n + 3
  | PcWait => 2
  | PcFinish => 1
  | PcDone => 0
  | PcRaised _ => 0
  end%nat.

(** ** The caller's side *)

(** What the constructor and [start] touch outside the object: the queue the
    caller shares with the consumers, the decoder threads that have been
    started, and the imaging library's pixel limit. *)
Record World := mkWorld {
  shared_queue : Queue;
  started : list Thread;
  MAX_IMAGE_PIXELS : option Z
}.

(** [VideoDecoder(path, width, height, rate, queue, settings, ignore)] as
    the caller sees it: the constructor drops the pixel limit when asked to,
    and then launches the process; the queue is stored, not touched. *)
Definition construct (environ : list (string * string))
    (popen : Command -> Result (Pipe * N))
    (path : string) (width height : Z) (frame_rate : FrameRate)
    (settings : Settings) (ignore_max_image_pixels : bool) (world : World)
  : Result VideoDecoder * World :=
  let world' :=
    if ignore_max_image_pixels
    then mkWorld (shared_queue world) (started world) None
    else world in
  (init environ popen path width height frame_rate (shared_queue world')
        settings,
   world').

(** The caller's two lines, [decoder = VideoDecoder(...)] and
    [decoder.start()]: the second is reached only when the first has
    returned, and it is what makes a thread of the object. *)
Definition construct_and_start (environ : list (string * string))
    (popen : Command -> Result (Pipe * N))
    (path : string) (width height : Z) (frame_rate : FrameRate)
    (settings : Settings) (ignore_max_image_pixels : bool) (world : World)
  : Result VideoDecoder * World :=
  match construct environ popen path width height frame_rate settings
                  ignore_max_image_pixels world with
  | (Ok d, world') =>
      (Ok d,
       mkWorld (shared_queue world') (spawn d :: started world')
               (MAX_IMAGE_PIXELS world'))
  | (Raise e, world') => (Raise e, world')
  end.

(** The number of steps a schedule gives the thread. *)
Fixpoint ticks (sched : list Event) : nat :=
  match sched with
  | [] => 0%nat
  | Tick :: rest => S (ticks rest)
  | StopCall :: rest => ticks rest
  end.

(** The thread has come to its end. *)
Definition halted (t : Thread) : Prop :=
  pc t = PcDone \/ exists e, pc t = PcRaised e.

(** The thread is in [self.decoder.wait()] and that call cannot return. *)
Definition stuck (t : Thread) : Prop :=
  pc t = PcWait /\ ~ unread_fits (self (frame t)).

(** The thread moves no more. *)
Definition settled (t : Thread) : Prop := halted t \/ stuck t.

(** What holds of a thread that is past the loop: the process has been
    waited for once [run] is about to return, and an exception that left
    [run] is one the handlers do not catch. *)
Definition leaving_well (t : Thread) : Prop :=
  match pc t with
  | PcFinish | PcDone => waited (decoder (self (frame t))) = true
  | PcRaised e => exc_class e = BaseException_cls
  | _ => True
  end.

(** ** Vocabulary of the statements *)

(** The state a pass ends in, however it ends. *)
Definition flow_state (f : Flow) : Locals :=
  match f with
  | Next st => st
  | Break st => st
  | Throw _ st => st
  end.

(** The state at the top of pass [n], when the loop gets that far. *)
Fixpoint nth_pass (n : nat) (st : Locals) : option Locals :=
  match n with
  | O => Some st
  | S n' =>
      if running (self st) then
        match loop_body st with
        | Next st' => nth_pass n' st'
        | _ => None
        end
      else None
  end.

(** The image a full chunk becomes. *)
Definition image_of (width height : Z) (chunk : list byte) : Image :=
  mkImage "RGB" (width, height) (unpack_rgb chunk).

(** The items the loop publishes for a run of images, counting from [k] with
    [previous] in the look-back slot. *)
Fixpoint pair_up (k : Z) (previous : option Image) (images : list Image)
    (settings : Settings) : list WorkItem :=
  match images with
  | [] => []
  | image :: rest =>
      match previous with
      | Some p => [(k, (p, image), settings)]
      | None => []
      end ++ pair_up (k + 1) (Some image) rest settings
  end.

(** The look-back slot after a run of images. *)
Definition look_back (previous : option Image) (images : list Image)
  : option Image :=
  fold_left (fun _ image => Some image) images previous.

(** The state after passes that published [new], left [rest] in the pipe and
    set the locals to [k] and [previous]; nothing else moves. *)
Definition progressed (new : list WorkItem) (rest : list byte) (k : Z)
    (previous : option Image) (st : Locals) : Locals :=
  let d := self st in
  mkLocals
    (mkDecoder (running d) (input_path d) (input_width d) (input_height d)
               (mkQueue (items (processing_queue d) ++ new)
                        (put_fault (processing_queue d)))
               (processing_settings d) (exception d)
               (mkPopen (mkPipe rest (read_fault (stdout (decoder d))))
                        (pipe_room (decoder d)) (waited (decoder d)))
               (logger d))
    k previous.

(** A pipe that never faults and a queue whose [put] never raises. *)
Definition sound_pipe (p : Pipe) : Prop :=
  forall bytes, read_fault p bytes = None.

Definition sound_queue (q : Queue) : Prop :=
  forall content, put_fault q content = None.

(** A geometry whose chunk size the interpreter can index. *)
Definition chunk_fits (d : VideoDecoder) : Prop :=
  3 * input_width d * input_height d <= PY_SSIZE_T_MAX.

(** A loop state with the flag set, a valid geometry and collaborators that
    do not fail. *)
Definition well_fed (st : Locals) : Prop :=
  running (self st) = true /\
  0 < input_width (self st) /\ 0 < input_height (self st) /\
  chunk_fits (self st) /\
  sound_pipe (stdout (decoder (self st))) /\
  sound_queue (processing_queue (self st)).

(** The log record the loop writes when the stream ends with [tail]. *)
Definition closing_record (tail : list byte) : LogRecord :=
  match tail with
  | [] => LogDebug "Decoding queue depleted"
  | _ :: _ => LogException (ValueError "not enough image data")
  end.

(** The sequence index of an item. *)
Definition item_index (item : WorkItem) : Z := fst (fst item).

(** The process levels the table can give. *)
Definition process_levels : list string :=
  ["trace"; "debug"; "info"; "warning"; "error"; "fatal"].

(** The locals and the queue agree: the queue holds [base] and then the
    pairs of the images converted so far, [frame_index] counts those images
    and the look-back slot holds the last of them. *)
Definition tidy (base : list WorkItem) (settings : Settings) (st : Locals)
  : Prop :=
  processing_settings (self st) = settings /\
  exists images,
    items (processing_queue (self st)) =
      base ++ pair_up 0 None images settings /\
    frame_index st = Z.of_nat (List.length images) /\
    previous_image st = look_back None images.

Definition tidy_thread (base : list WorkItem) (settings : Settings)
    (t : Thread) : Prop :=
  tidy base settings (frame t) /\
  (pc t = PcEntry -> items (processing_queue (self (frame t))) = base).

(** The last-error slot after a loop that ended with record [r] in the
    log. *)
Definition slot_after (r : LogRecord) (before : option PyExc)
  : option PyExc :=
  match r with
  | LogDebug _ => before
  | LogException e =>
      match exc_class e with
      | Exception_cls => Some e
      | _ => before
      end
  end.

(** The object [run] leaves behind, returned or not. *)
Definition outcome_state (out : Outcome) : VideoDecoder :=
  match out with
  | Returned d => d
  | Propagated _ d => d
  | Blocked d => d
  end.

(** Steps a thread whose flag is down needs at most to come to its end. *)
Definition steps_after_stop (p : Pc) : nat :=
  match p with
  | PcEntry => 0
  | PcWhile => 3
  | PcBody => 4
  | PcWait => 2
  | PcFinish => 1
  | PcDone => 0
  | PcRaised _ => 0
  end%nat.

(** ** Sample objects *)

(** The object the constructor returns when the process starts and delivers
    [bytes]. *)
Definition fresh_decoder (width height : Z) (bytes : list byte)
    (settings : Settings) : VideoDecoder :=
  mkDecoder false "input.mp4" width height
            (mkQueue [] (fun _ => None)) settings None
            (mkPopen (mkPipe bytes (fun _ => None)) 65536 false) [].

Definition launch_failure : PyExc :=
  mkExc Exception_cls "FileNotFoundError: No such file or directory: 'ffmpeg'".

Definition read_failure : PyExc :=
  mkExc Exception_cls "OSError: Input/output error".

(** The same object when every read on the pipe fails. *)
Definition decoder_on_bad_pipe (width height : Z) (settings : Settings)
  : VideoDecoder :=
  mkDecoder false "input.mp4" width height
            (mkQueue [] (fun _ => None)) settings None
            (mkPopen (mkPipe [] (fun _ => Some read_failure)) 65536 false) [].

(** Three frames of one pixel, and one byte too many. *)
Definition three_frames : list (list byte) :=
  [[x00; x01; x02]; [x03; x04; x05]; [x06; x07; x08]].

Definition stray_byte : list byte := [x09].

Definition queue_full : PyExc := mkExc Exception_cls "queue.Full".

(** The object the constructor returns when the pipe has room for four
    unread bytes only. *)
Definition decoder_on_small_pipe (width height : Z) (bytes : list byte)
    (settings : Settings) : VideoDecoder :=
  mkDecoder false "input.mp4" width height
            (mkQueue [] (fun _ => None)) settings None
            (mkPopen (mkPipe bytes (fun _ => None)) 4 false) [].

(** The object the constructor returns when the caller's queue refuses
    every item. *)
Definition decoder_on_full_queue (width height : Z) (bytes : list byte)
    (settings : Settings) : VideoDecoder :=
  mkDecoder false "input.mp4" width height
            (mkQueue [] (fun _ => Some queue_full)) settings None
            (mkPopen (mkPipe bytes (fun _ => None)) 65536 false) [].


(** * Properties *)

(** ** The imaging layer *)

Lemma pack_unpack_rgb : forall (n : nat) (data : list byte),
  List.length data = (3 * n)%nat -> pack_rgb (unpack_rgb data) = data.
Proof.
  induction n as [|n IH]; intros data Hlen.
  - destruct data; [reflexivity | discriminate].
  - destruct data as [|r [|g [|b rest]]]; simpl in Hlen; try lia.
    unfold pack_rgb. simpl. do 3 f_equal. apply IH. lia.
Qed.

Lemma frombytes_full : forall width height chunk,
  0 < width -> 0 < height ->
  Z.of_nat (List.length chunk) = 3 * width * height ->
  Image_frombytes width height chunk = Ok (image_of width height chunk).
Proof.
  intros width height chunk Hw Hh Hlen. unfold Image_frombytes.
  replace (width <? 0) with false by (symmetry; apply Z.ltb_ge; lia).
  replace (height <? 0) with false by (symmetry; apply Z.ltb_ge; lia).
  rewrite Hlen, Z.ltb_irrefl, <- Hlen, Nat2Z.id, firstn_all. reflexivity.
Qed.

Lemma frombytes_short : forall width height data,
  0 < width -> 0 < height ->
  Z.of_nat (List.length data) < 3 * width * height ->
  Image_frombytes width height data =
  Raise (ValueError "not enough image data").
Proof.
  intros width height data Hw Hh Hlen. unfold Image_frombytes.
  replace (width <? 0) with false by (symmetry; apply Z.ltb_ge; lia).
  replace (height <? 0) with false by (symmetry; apply Z.ltb_ge; lia).
  apply Z.ltb_lt in Hlen. rewrite Hlen. reflexivity.
Qed.

(** ** The pipe *)

Lemma ssize_max_pos : 0 < PY_SSIZE_T_MAX.
Proof. reflexivity. Qed.

Lemma read_size_accepted : forall size,
  0 <= size <= PY_SSIZE_T_MAX ->
  ((size <? - PY_SSIZE_T_MAX - 1) || (PY_SSIZE_T_MAX <? size))%bool = false.
Proof.
  intros size [Hlow Hhigh]. pose proof ssize_max_pos.
  apply Bool.orb_false_iff. split; apply Z.ltb_ge; lia.
Qed.

Lemma wait_drained : forall p,
  pending (stdout p) = [] ->
  wait p = Some (mkPopen (stdout p) (pipe_room p) true).
Proof.
  intros p Hpend. unfold wait. rewrite Hpend.
  replace (N.of_nat (List.length (@nil byte)) <=? pipe_room p)%N with true
    by (symmetry; apply N.leb_le; cbn; apply N.le_0_l).
  reflexivity.
Qed.

Lemma read_chunk : forall size p chunk rest,
  0 < size <= PY_SSIZE_T_MAX -> sound_pipe p ->
  pending p = chunk ++ rest -> Z.of_nat (List.length chunk) = size ->
  read size p = Ok (chunk, mkPipe rest (read_fault p)).
Proof.
  intros size p chunk rest [Hpos Hfit] Hsound Hpend Hlen. unfold read.
  rewrite read_size_accepted by lia.
  replace (size <? -1) with false by (symmetry; apply Z.ltb_ge; lia).
  rewrite Hsound.
  replace (size =? -1) with false by (symmetry; apply Z.eqb_neq; lia).
  rewrite Hpend.
  replace (Z.to_nat size) with (List.length chunk + 0)%nat by lia.
  rewrite firstn_app_2, skipn_app, Nat.add_0_r, skipn_all.
  replace (List.length chunk - List.length chunk)%nat with 0%nat by lia.
  simpl. rewrite app_nil_r. reflexivity.
Qed.

Lemma read_tail : forall size p,
  0 < size <= PY_SSIZE_T_MAX -> sound_pipe p ->
  Z.of_nat (List.length (pending p)) < size ->
  read size p = Ok (pending p, mkPipe [] (read_fault p)).
Proof.
  intros size p [Hpos Hfit] Hsound Hlen. unfold read.
  rewrite read_size_accepted by lia.
  replace (size <? -1) with false by (symmetry; apply Z.ltb_ge; lia).
  rewrite Hsound.
  replace (size =? -1) with false by (symmetry; apply Z.eqb_neq; lia).
  rewrite firstn_all2, skipn_all2 by lia. reflexivity.
Qed.

(** ** Passes over full frames *)

Lemma progressed_same : forall st,
  progressed [] (pending (stdout (decoder (self st))))
             (frame_index st) (previous_image st) st = st.
Proof.
  intros [[r ip w h [it pf] s ex [[pe rf] room wt] lg] k prev].
  unfold progressed. simpl. rewrite app_nil_r. reflexivity.
Qed.

Lemma progressed_twice : forall n1 r1 k1 p1 n2 r2 k2 p2 st,
  progressed n2 r2 k2 p2 (progressed n1 r1 k1 p1 st) =
  progressed (n1 ++ n2) r2 k2 p2 st.
Proof.
  intros. unfold progressed. simpl. rewrite <- app_assoc. reflexivity.
Qed.

Lemma well_fed_progressed : forall new rest k prev st,
  well_fed st -> well_fed (progressed new rest k prev st).
Proof.
  intros new rest k prev st (Hrun & Hw & Hh & Hfit & Hpipe & Hq).
  unfold well_fed, progressed. simpl. repeat split; assumption.
Qed.

Lemma chunk_size_pos : forall width height,
  0 < width -> 0 < height -> 0 < 3 * width * height.
Proof. intros. nia. Qed.

Lemma pass_full_frame : forall st chunk rest,
  well_fed st ->
  pending (stdout (decoder (self st))) = chunk ++ rest ->
  Z.of_nat (List.length chunk) =
    3 * input_width (self st) * input_height (self st) ->
  loop_body st =
  Next (progressed
          (pair_up (frame_index st) (previous_image st)
                   [image_of (input_width (self st)) (input_height (self st))
                             chunk]
                   (processing_settings (self st)))
          rest (frame_index st + 1)
          (Some (image_of (input_width (self st)) (input_height (self st))
                          chunk))
          st).
Proof.
  intros [[r ip w h [it pf] s ex [[pe rf] room wt] lg] k prev] chunk rest
         (Hrun & Hw & Hh & Hfit & Hpipe & Hq) Hpend Hlen.
  cbn [self decoder stdout input_width input_height running
       processing_queue pending frame_index previous_image
       processing_settings] in *.
  pose proof (conj (chunk_size_pos w h Hw Hh) Hfit
              : 0 < 3 * w * h <= PY_SSIZE_T_MAX) as Hpos.
  unfold loop_body, try_block.
  cbn [self decoder stdout input_width input_height].
  rewrite (read_chunk (3 * w * h) (mkPipe pe rf) chunk rest Hpos Hpipe Hpend Hlen).
  destruct (Nat.eqb_spec (List.length chunk) 0) as [Hz | _]; [lia |].
  rewrite (frombytes_full w h chunk Hw Hh Hlen).
  unfold progressed. cbn -[Z.add].
  destruct prev as [previous |]; unfold put; simpl; rewrite ?Hq; simpl;
    rewrite ?app_nil_r; reflexivity.
Qed.

Lemma loop_full_frames : forall frames st rest fuel,
  well_fed st ->
  Forall (fun f => Z.of_nat (List.length f) =
                   3 * input_width (self st) * input_height (self st)) frames ->
  pending (stdout (decoder (self st))) = List.concat frames ++ rest ->
  while_running (List.length frames + fuel) st =
  while_running fuel
    (progressed
       (pair_up (frame_index st) (previous_image st)
                (map (image_of (input_width (self st)) (input_height (self st)))
                     frames)
                (processing_settings (self st)))
       rest (frame_index st + Z.of_nat (List.length frames))
       (look_back (previous_image st)
                  (map (image_of (input_width (self st))
                                 (input_height (self st))) frames))
       st).
Proof.
  induction frames as [| f fs IH]; intros st rest fuel Hfed Hall Hpend.
  - simpl in *. rewrite Z.add_0_r, <- Hpend, progressed_same. reflexivity.
  - inversion Hall as [| f' fs' Hf Hfs]; subst.
    simpl in Hpend. rewrite <- app_assoc in Hpend.
    change (List.length (f :: fs) + fuel)%nat
      with (S (List.length fs + fuel)).
    simpl while_running.
    destruct Hfed as (Hrun & Hrest). rewrite Hrun.
    rewrite (pass_full_frame st f (List.concat fs ++ rest)
               (conj Hrun Hrest) Hpend Hf).
    rewrite IH with (rest := rest).
    + rewrite progressed_twice. unfold progressed at 2 3 4 5 6 7 8. simpl.
      rewrite app_nil_r.
      replace (frame_index st + 1 + Z.of_nat (List.length fs))
        with (frame_index st + Z.pos (Pos.of_succ_nat (List.length fs)))
        by lia.
      reflexivity.
    + apply well_fed_progressed. exact (conj Hrun Hrest).
    + exact Hfs.
    + reflexivity.
Qed.

(** ** How the loop ends on a sound stream *)

Lemma pass_depleted : forall st,
  well_fed st ->
  pending (stdout (decoder (self st))) = [] ->
  loop_body st =
  Break (on_self (log (LogDebug "Decoding queue depleted")) st).
Proof.
  intros [[r ip w h [it pf] s ex [[pe rf] room wt] lg] k prev]
         (Hrun & Hw & Hh & Hfit & Hpipe & Hq) Hpend.
  cbn [self decoder stdout input_width input_height running
       processing_queue pending] in *.
  pose proof (conj (chunk_size_pos w h Hw Hh) Hfit
              : 0 < 3 * w * h <= PY_SSIZE_T_MAX) as Hpos.
  unfold loop_body, try_block.
  cbn [self decoder stdout input_width input_height].
  subst pe.
  rewrite (read_tail (3 * w * h) (mkPipe [] rf) Hpos Hpipe)
    by exact (proj1 Hpos).
  reflexivity.
Qed.

Lemma pass_short_tail : forall st,
  well_fed st ->
  pending (stdout (decoder (self st))) <> [] ->
  Z.of_nat (List.length (pending (stdout (decoder (self st))))) <
    3 * input_width (self st) * input_height (self st) ->
  loop_body st =
  Break (on_self (log (LogException (ValueError "not enough image data")))
                 (progressed [] [] (frame_index st) (previous_image st) st)).
Proof.
  intros [[r ip w h [it pf] s ex [[pe rf] room wt] lg] k prev]
         (Hrun & Hw & Hh & Hfit & Hpipe & Hq) Hne Hlen.
  cbn [self decoder stdout input_width input_height running
       processing_queue pending] in *.
  pose proof (conj (chunk_size_pos w h Hw Hh) Hfit
              : 0 < 3 * w * h <= PY_SSIZE_T_MAX) as Hpos.
  unfold loop_body, try_block.
  cbn [self decoder stdout input_width input_height].
  rewrite (read_tail (3 * w * h) (mkPipe pe rf) Hpos Hpipe Hlen).
  cbn [pending].
  destruct pe as [| b pe']; [congruence |].
  cbn [List.length Nat.eqb].
  rewrite (frombytes_short w h (b :: pe') Hw Hh Hlen).
  unfold progressed. simpl. rewrite app_nil_r. reflexivity.
Qed.

Lemma loop_to_end : forall frames tail st fuel,
  well_fed st ->
  Forall (fun f => Z.of_nat (List.length f) =
                   3 * input_width (self st) * input_height (self st)) frames ->
  pending (stdout (decoder (self st))) = List.concat frames ++ tail ->
  Z.of_nat (List.length tail) <
    3 * input_width (self st) * input_height (self st) ->
  while_running (List.length frames + S fuel) st =
  Some (Left
    (on_self (log (closing_record tail))
       (progressed
          (pair_up (frame_index st) (previous_image st)
             (map (image_of (input_width (self st)) (input_height (self st)))
                  frames)
             (processing_settings (self st)))
          [] (frame_index st + Z.of_nat (List.length frames))
          (look_back (previous_image st)
             (map (image_of (input_width (self st)) (input_height (self st)))
                  frames))
          st))).
Proof.
  intros frames tail st fuel Hfed Hall Hpend Htail.
  rewrite (loop_full_frames frames st tail (S fuel) Hfed Hall Hpend).
  set (new := pair_up _ _ _ _). set (k := frame_index st + _).
  set (prev := look_back _ _).
  assert (Hfed' : well_fed (progressed new tail k prev st))
    by (apply well_fed_progressed; exact Hfed).
  cbn [while_running].
  destruct Hfed' as (Hrun & Hrest). rewrite Hrun.
  destruct tail as [| b tail'].
  - rewrite pass_depleted by (exact (conj Hrun Hrest) || reflexivity).
    reflexivity.
  - rewrite pass_short_tail;
      [ | exact (conj Hrun Hrest) | discriminate | exact Htail ].
    rewrite progressed_twice, app_nil_r. reflexivity.
Qed.

Lemma concat_length_ge : forall (frames : list (list byte)),
  Forall (fun f => (0 < List.length f)%nat) frames ->
  (List.length frames <= List.length (List.concat frames))%nat.
Proof.
  induction 1 as [| f fs Hf _ IH]; simpl.
  - lia.
  - rewrite length_app. lia.
Qed.

(** [run] on a sound stream of full frames followed by a tail shorter than
    a frame. *)
Lemma leave_drained : forall d,
  pending (stdout (decoder d)) = [] ->
  leave d = Some (returned_from d).
Proof.
  intros d Hpend. unfold leave, reap. rewrite (wait_drained _ Hpend).
  reflexivity.
Qed.

(** The wait returns exactly when the unread output fits the pipe. *)
Lemma reap_cases : forall d,
  (unread_fits d /\
   reap d = Some (log (LogDebug "Decoder thread exiting")
                      (set_decoder (mkPopen (stdout (decoder d))
                                            (pipe_room (decoder d)) true) d)))
  \/ (~ unread_fits d /\ reap d = None).
Proof.
  intros d. unfold reap, wait, unread_fits.
  destruct (N.leb_spec (N.of_nat (List.length (pending (stdout (decoder d)))))
                       (pipe_room (decoder d))) as [Hfits | Hover].
  - left. split; [exact Hfits | reflexivity].
  - right. split; [apply N.lt_nge; exact Hover | reflexivity].
Qed.

Lemma leave_cases : forall d,
  (unread_fits d /\ leave d = Some (returned_from d)) \/
  (~ unread_fits d /\ leave d = None).
Proof.
  intros d. unfold leave.
  destruct (reap_cases d) as [(Hfits & Hreap) | (Hover & Hreap)];
    rewrite Hreap; [left | right]; split; auto.
Qed.

Lemma run_frames : forall d frames tail,
  0 < input_width d -> 0 < input_height d -> chunk_fits d ->
  sound_pipe (stdout (decoder d)) -> sound_queue (processing_queue d) ->
  Forall (fun f => Z.of_nat (List.length f) =
                   3 * input_width d * input_height d) frames ->
  pending (stdout (decoder d)) = List.concat frames ++ tail ->
  Z.of_nat (List.length tail) < 3 * input_width d * input_height d ->
  exists d',
    run d = Some (Returned d') /\
    items (processing_queue d') =
      items (processing_queue d) ++
      pair_up 0 None (map (image_of (input_width d) (input_height d)) frames)
              (processing_settings d) /\
    exception d' = exception d /\
    logger d' = logger d ++
                [closing_record tail; LogDebug "Decoder thread exiting"] /\
    pending (stdout (decoder d')) = [] /\
    waited (decoder d') = true /\
    running d' = false.
Proof.
  intros d frames tail Hw Hh Hfit Hpipe Hq Hall Hpend Htail.
  pose proof (chunk_size_pos _ _ Hw Hh) as Hpos.
  assert (Hlen : (List.length frames <=
                  List.length (List.concat frames))%nat).
  { apply concat_length_ge. eapply Forall_impl; [| exact Hall].
    cbv beta. intros f Hf. lia. }
  unfold run, passes. rewrite Hpend, length_app.
  replace (S (List.length (List.concat frames) + List.length tail))
    with (List.length frames +
          S (List.length (List.concat frames) - List.length frames
             + List.length tail))%nat by lia.
  rewrite (loop_to_end frames tail (enter d)); try assumption.
  - rewrite leave_drained by reflexivity.
    eexists. split; [reflexivity |].
    unfold progressed. simpl.
    rewrite <- app_assoc. simpl. repeat split; reflexivity.
  - unfold well_fed, enter. simpl. repeat split; assumption.
Qed.

(** ** The published items *)

Lemma pair_up_length : forall images k p s,
  List.length (pair_up k (Some p) images s) = List.length images.
Proof.
  induction images as [| image rest IH]; intros k p s; simpl.
  - reflexivity.
  - rewrite IH. reflexivity.
Qed.

Lemma pair_up_nth : forall images k p s i dflt,
  (i < List.length images)%nat ->
  nth_error (pair_up k (Some p) images s) i =
  Some (k + Z.of_nat i, (nth i (p :: images) dflt, nth i images dflt), s).
Proof.
  induction images as [| image rest IH]; intros k p s i dflt Hi;
    simpl in Hi; [lia |].
  destruct i as [| i].
  - simpl. rewrite Z.add_0_r. reflexivity.
  - cbn [pair_up app nth_error].
    rewrite (IH (k + 1) image s i dflt) by lia.
    replace (k + 1 + Z.of_nat i) with (k + Z.of_nat (S i)) by lia.
    reflexivity.
Qed.

Lemma pair_up_indices : forall images n p s,
  map (fun item : WorkItem => fst (fst item))
      (pair_up (Z.of_nat n) (Some p) images s) =
  map Z.of_nat (seq n (List.length images)).
Proof.
  induction images as [| image rest IH]; intros n p s.
  - reflexivity.
  - cbn [pair_up app map List.length seq fst]. f_equal.
    replace (Z.of_nat n + 1) with (Z.of_nat (S n)) by lia.
    apply IH.
Qed.

(** ** Cutting a byte stream into frames *)

Lemma split_frames : forall (n : nat), (0 < n)%nat ->
  forall (m : nat) (bytes : list byte), (List.length bytes <= m)%nat ->
  exists frames tail,
    bytes = List.concat frames ++ tail /\
    Forall (fun f => List.length f = n) frames /\
    (List.length tail < n)%nat /\
    List.length bytes = (List.length frames * n + List.length tail)%nat.
Proof.
  intros n Hn. induction m as [| m IH]; intros bytes Hm.
  - exists [], bytes. simpl. repeat split; [constructor | lia].
  - destruct (Nat.lt_ge_cases (List.length bytes) n) as [Hshort | Hlong].
    + exists [], bytes. simpl. repeat split; [constructor | lia].
    + destruct (IH (skipn n bytes)) as (frames & tail & Hcat & Hall & Ht & Hl).
      { rewrite length_skipn. lia. }
      exists (firstn n bytes :: frames), tail. repeat split.
      * simpl. rewrite <- app_assoc, <- Hcat. symmetry. apply firstn_skipn.
      * constructor; [| exact Hall]. rewrite length_firstn. lia.
      * exact Ht.
      * rewrite length_skipn in Hl. simpl. lia.
Qed.

(** C9: a chunk of exactly width*height*3 bytes becomes an image whose
    pixel buffer serialises back to the very same bytes; and the pass of the
    loop that reads such a chunk keeps exactly that image. *)
Theorem frame_bytes_round_trip : forall width height chunk,
  0 < width -> 0 < height ->
  Z.of_nat (List.length chunk) = 3 * width * height ->
  (exists image,
     Image_frombytes width height chunk = Ok image /\
     Image_tobytes image = chunk /\
     im_size image = (width, height)) /\
  (forall st rest,
     well_fed st ->
     input_width (self st) = width -> input_height (self st) = height ->
     pending (stdout (decoder (self st))) = chunk ++ rest ->
     exists st' image,
       loop_body st = Next st' /\
       previous_image st' = Some image /\
       Image_tobytes image = chunk).
Proof.
  intros width height chunk Hw Hh Hlen.
  assert (Hback : Image_tobytes (image_of width height chunk) = chunk).
  { unfold Image_tobytes, image_of. cbn [im_pixels].
    apply (pack_unpack_rgb (Z.to_nat (width * height))). nia. }
  split.
  - exists (image_of width height chunk).
    rewrite (frombytes_full width height chunk Hw Hh Hlen).
    repeat split. exact Hback.
  - intros st rest Hfed Hwid Hhei Hpend.
    rewrite <- Hwid, <- Hhei in Hlen.
    rewrite (pass_full_frame st chunk rest Hfed Hpend Hlen).
    eexists. eexists. split; [reflexivity |].
    cbn [progressed previous_image]. rewrite Hwid, Hhei.
    split; [reflexivity | exact Hback].
Qed.

(** ** The run loop on whole streams *)

(** C1: on a stream of exactly N full frames, of a size the interpreter can
    index, [run] returns having appended max(N-1, 0) items to the queue;
    their indices are 1, 2, ..., N-1 in this order, the item at position i
    (the one with index i+1) is the 3-tuple
    (i+1, (frame i, frame i+1), processing_settings), and none has
    index 0. *)
Theorem run_publishes_frame_pairs : forall d frames,
  0 < input_width d -> 0 < input_height d -> chunk_fits d ->
  sound_pipe (stdout (decoder d)) -> sound_queue (processing_queue d) ->
  Forall (fun f => Z.of_nat (List.length f) =
                   3 * input_width d * input_height d) frames ->
  pending (stdout (decoder d)) = List.concat frames ->
  exists d' new,
    run d = Some (Returned d') /\
    items (processing_queue d') = items (processing_queue d) ++ new /\
    Z.of_nat (List.length new) = Z.max (Z.of_nat (List.length frames) - 1) 0 /\
    map (fun item : WorkItem => fst (fst item)) new =
      map Z.of_nat (seq 1 (List.length frames - 1)) /\
    (forall i, (S i < List.length frames)%nat ->
       nth_error new i =
       Some (Z.of_nat (S i),
             (image_of (input_width d) (input_height d) (nth i frames []),
              image_of (input_width d) (input_height d) (nth (S i) frames [])),
             processing_settings d)) /\
    (forall item, In item new -> fst (fst item) <> 0).
Proof.
  intros d frames Hw Hh Hfit Hpipe Hq Hall Hpend.
  set (w := input_width d) in Hw, Hh, Hall |- *.
  set (h := input_height d) in Hw, Hh, Hall |- *.
  destruct (run_frames d frames [] Hw Hh Hfit Hpipe Hq Hall)
    as (d' & Hrun & Hitems & _).
  { rewrite app_nil_r. exact Hpend. }
  { apply chunk_size_pos; assumption. }
  fold w h in Hitems.
  exists d', (pair_up 0 None (map (image_of w h) frames)
                      (processing_settings d)).
  split; [exact Hrun |]. split; [exact Hitems |].
  destruct frames as [| f0 rest].
  - simpl. repeat split; try reflexivity.
    + intros i Hi. lia.
    + intros item [].
  - cbn [map pair_up app Z.add].
    assert (Hidx : map (fun item : WorkItem => fst (fst item))
                     (pair_up 1 (Some (image_of w h f0))
                        (map (image_of w h) rest) (processing_settings d)) =
                   map Z.of_nat (seq 1 (List.length rest))).
    { rewrite <- (length_map (image_of w h) rest).
      exact (pair_up_indices (map (image_of w h) rest) 1
                             (image_of w h f0) (processing_settings d)). }
    split; [| split; [| split]].
    + rewrite pair_up_length, length_map. cbn [List.length]. lia.
    + cbn [List.length]. rewrite Nat.sub_succ, Nat.sub_0_r. exact Hidx.
    + intros i Hi. cbn [List.length] in Hi.
      rewrite (pair_up_nth _ 1 _ _ i (image_of w h []))
        by (rewrite length_map; lia).
      change (image_of w h f0 :: map (image_of w h) rest)
        with (map (image_of w h) (f0 :: rest)).
      rewrite !(map_nth (image_of w h)).
      replace (1 + Z.of_nat i) with (Z.of_nat (S i)) by lia.
      reflexivity.
    + intros item Hin Hzero.
      apply (in_map (fun item : WorkItem => fst (fst item))) in Hin.
      rewrite Hidx, Hzero in Hin.
      apply in_map_iff in Hin. destruct Hin as (n & Hn & Hseq).
      apply in_seq in Hseq. lia.
Qed.

(** C5: on a sound stream whose length is a multiple of width*height*3
    (the empty stream included), a chunk size the interpreter can index
    given, [run] reads to the end, notes the depletion in the log, leaves
    the last-error slot as it was and returns with the flag cleared and the
    process waited for. *)
Theorem run_depleted_without_error : forall d,
  0 < input_width d -> 0 < input_height d -> chunk_fits d ->
  sound_pipe (stdout (decoder d)) -> sound_queue (processing_queue d) ->
  Z.of_nat (List.length (pending (stdout (decoder d))))
    mod (3 * input_width d * input_height d) = 0 ->
  exists d',
    run d = Some (Returned d') /\
    exception d' = exception d /\
    logger d' = logger d ++ [LogDebug "Decoding queue depleted";
                             LogDebug "Decoder thread exiting"] /\
    pending (stdout (decoder d')) = [] /\
    running d' = false.
Proof.
  intros d Hw Hh Hfit Hpipe Hq Hmod.
  pose proof (chunk_size_pos _ _ Hw Hh) as Hpos.
  set (size := 3 * input_width d * input_height d) in Hmod, Hpos |- *.
  destruct (split_frames (Z.to_nat size) ltac:(lia) _
              (pending (stdout (decoder d))) (Nat.le_refl _))
    as (frames & tail & Hcat & Hall & Ht & Hlen).
  assert (Htail : tail = []).
  { apply length_zero_iff_nil.
    assert (Hz : Z.of_nat (List.length (pending (stdout (decoder d)))) =
                 Z.of_nat (List.length tail) +
                 Z.of_nat (List.length frames) * size).
    { rewrite Hlen. lia. }
    rewrite Hz, Z_mod_plus_full, Z.mod_small in Hmod by lia. lia. }
  subst tail.
  destruct (run_frames d frames [] Hw Hh Hfit Hpipe Hq)
    as (d' & Hrun & _ & Hexc & Hlog & Hpend & _ & Hflag).
  { eapply Forall_impl; [| exact Hall]. cbv beta. fold size. intros f Hf. lia. }
  { exact Hcat. }
  { fold size. simpl. exact Hpos. }
  exists d'. repeat split; assumption.
Qed.

(** C2 (as the code has it): on a sound stream that ends with a partial
    frame, a chunk size the interpreter can index given, [run] reads to the
    end, logs the imaging layer's ValueError and returns; the last-error
    slot is left as it was, and the queue holds the pairs of the full frames
    only. *)
Theorem run_partial_frame_logged_only : forall d frames tail,
  0 < input_width d -> 0 < input_height d -> chunk_fits d ->
  sound_pipe (stdout (decoder d)) -> sound_queue (processing_queue d) ->
  Forall (fun f => Z.of_nat (List.length f) =
                   3 * input_width d * input_height d) frames ->
  pending (stdout (decoder d)) = List.concat frames ++ tail ->
  0 < Z.of_nat (List.length tail) < 3 * input_width d * input_height d ->
  exists d',
    run d = Some (Returned d') /\
    pending (stdout (decoder d')) = [] /\
    exception d' = exception d /\
    logger d' = logger d ++
                [LogException (ValueError "not enough image data");
                 LogDebug "Decoder thread exiting"] /\
    items (processing_queue d') =
      items (processing_queue d) ++
      pair_up 0 None (map (image_of (input_width d) (input_height d)) frames)
              (processing_settings d).
Proof.
  intros d frames tail Hw Hh Hfit Hpipe Hq Hall Hpend [Hne Hshort].
  destruct (run_frames d frames tail Hw Hh Hfit Hpipe Hq Hall Hpend Hshort)
    as (d' & Hrun & Hitems & Hexc & Hlog & Hrest & _).
  exists d'. repeat split; try assumption.
  destruct tail; [simpl in Hne; lia | exact Hlog].
Qed.

(** ** One pass, whatever the collaborators do *)

Lemma read_effect : forall size p buffer out,
  read size p = Ok (buffer, out) ->
  read_fault out = read_fault p /\
  (List.length (pending out) <= List.length (pending p))%nat /\
  (buffer <> [] -> (List.length (pending out) < List.length (pending p))%nat).
Proof.
  intros size p buffer out. unfold read.
  destruct (_ || _)%bool; [discriminate |].
  destruct (size <? -1); [discriminate |].
  destruct (read_fault p (pending p)); [discriminate |].
  destruct (size =? -1); intros H; inversion H; subst; clear H;
    cbn [pending read_fault].
  - repeat split; [simpl; lia |].
    intros Hne. destruct (pending p); [congruence | simpl; lia].
  - rewrite length_skipn. repeat split; [lia |].
    intros Hne.
    destruct (Z.to_nat size); [simpl in Hne; congruence |].
    destruct (pending p); [simpl in Hne; congruence | simpl; lia].
Qed.

Ltac pass_cases st :=
  unfold loop_body, try_block;
  destruct (read _ (stdout (decoder (self st)))) as [[buffer out] | e0] eqn:Hread;
  [ destruct (Nat.eqb (List.length buffer) 0) eqn:Hempty;
    [ | destruct (Image_frombytes _ _ buffer) as [image | e1] eqn:Himage;
        [ destruct (previous_image st) as [previous |] eqn:Hprev;
          cbn [on_self previous_image];
          [ rewrite ?Hprev; unfold put;
            destruct (put_fault (processing_queue (self st))
                                (items (processing_queue (self st))))
              as [e2 |] eqn:Hput
          | rewrite ?Hprev ]
        | ] ]
  | ].

(** Whatever a pass does, it keeps the flag, the wait status and the two
    fault tables, takes bytes only, and publishes at most one item. *)
Lemma pass_effect : forall st,
  let st' := flow_state (loop_body st) in
  running (self st') = running (self st) /\
  waited (decoder (self st')) = waited (decoder (self st)) /\
  read_fault (stdout (decoder (self st'))) =
    read_fault (stdout (decoder (self st))) /\
  put_fault (processing_queue (self st')) =
    put_fault (processing_queue (self st)) /\
  (List.length (pending (stdout (decoder (self st')))) <=
   List.length (pending (stdout (decoder (self st)))))%nat /\
  exists extra,
    items (processing_queue (self st')) =
      items (processing_queue (self st)) ++ extra /\
    (List.length extra <= 1)%nat.
Proof.
  intros st. cbv zeta.
  pass_cases st;
    try (destruct (read_effect _ _ _ _ Hread) as (Hrf & Hle & _));
    try destruct (exc_class _);
    cbn [flow_state on_self self set_decoder set_exception log
         set_processing_queue running decoder waited stdout
         processing_queue items put_fault];
    repeat split; try assumption; try lia;
    first [ exists []; rewrite app_nil_r; split; [reflexivity | simpl; lia]
          | eexists [_]; split; [reflexivity | simpl; lia] ].
Qed.

(** A pass that reaches the end of the body has taken at least one byte and
    has touched neither the last-error slot nor the log. *)
Lemma pass_next : forall st st',
  loop_body st = Next st' ->
  (List.length (pending (stdout (decoder (self st')))) <
   List.length (pending (stdout (decoder (self st)))))%nat /\
  exception (self st') = exception (self st) /\
  logger (self st') = logger (self st).
Proof.
  intros st st'.
  pass_cases st; try destruct (exc_class _); try discriminate;
    intros H; inversion H; subst; clear H;
    destruct (read_effect _ _ _ _ Hread) as (_ & _ & Hlt);
    cbn [self set_decoder set_processing_queue on_self decoder stdout
         exception logger];
    (split; [| split; reflexivity]);
    apply Hlt; intros Hnil; subst buffer; discriminate.
Qed.

(** An exception leaving the [try] has changed neither the last-error slot
    nor the log nor the flag. *)
Lemma try_throw : forall st e st',
  try_block st = Throw e st' ->
  exception (self st') = exception (self st) /\
  logger (self st') = logger (self st) /\
  running (self st') = running (self st).
Proof.
  intros st e st'. unfold try_block.
  destruct (read _ (stdout (decoder (self st)))) as [[buffer out] | e0];
    [| intros H; inversion H; subst; repeat split].
  destruct (Nat.eqb (List.length buffer) 0); [discriminate |].
  destruct (Image_frombytes _ _ buffer) as [image | e1];
    [| intros H; inversion H; subst; repeat split].
  destruct (match previous_image _ with Some _ => _ | None => _ end);
    [discriminate | intros H; inversion H; subst; repeat split].
Qed.

(** ** The loop, whatever the collaborators do *)

(** The bound on the passes is never used up. *)
Lemma while_total : forall fuel st,
  (List.length (pending (stdout (decoder (self st)))) < fuel)%nat ->
  exists out, while_running fuel st = Some out.
Proof.
  induction fuel as [| fuel IH]; intros st Hfuel; [lia |].
  cbn [while_running].
  destruct (running (self st)); [| eexists; reflexivity].
  destruct (loop_body st) as [st' | st' | e st'] eqn:Hbody;
    try (eexists; reflexivity).
  apply IH. destruct (pass_next st st' Hbody) as (Hlt & _). lia.
Qed.

Lemma run_total : forall d, exists out, run d = Some out.
Proof.
  intros d. unfold run.
  destruct (while_total (passes d) (enter d)) as (out & Hout).
  - unfold passes, enter. simpl. lia.
  - rewrite Hout. destruct out as [st | e st];
      [destruct (leave (self st)) |]; eexists; reflexivity.
Qed.

(** Only what neither handler catches leaves the loop. *)
Lemma while_uncaught : forall fuel st e st',
  while_running fuel st = Some (Uncaught e st') ->
  exc_class e = BaseException_cls.
Proof.
  induction fuel as [| fuel IH]; intros st e st'; [discriminate |].
  cbn [while_running].
  destruct (running (self st)); [| discriminate].
  destruct (loop_body st) as [st1 | st1 | e1 st1] eqn:Hbody.
  - apply IH.
  - discriminate.
  - intros H. inversion H; subst; clear H.
    unfold loop_body in Hbody.
    destruct (try_block st) as [? | ? | e2 st2]; try discriminate.
    destruct (exc_class e2) eqn:Hclass; try discriminate.
    inversion Hbody; subst. exact Hclass.
Qed.

(** Reaching the top of pass [n] costs [n] passes and at least [n] bytes,
    and leaves flag, last-error slot and log alone. *)
Lemma nth_pass_reached : forall n st0 st,
  nth_pass n st0 = Some st ->
  (forall fuel, while_running (n + fuel) st0 = while_running fuel st) /\
  (n + List.length (pending (stdout (decoder (self st)))) <=
   List.length (pending (stdout (decoder (self st0)))))%nat /\
  running (self st) = running (self st0) /\
  exception (self st) = exception (self st0) /\
  logger (self st) = logger (self st0).
Proof.
  induction n as [| n IH]; intros st0 st.
  - intros H. inversion H; subst. repeat split. simpl. lia.
  - cbn [nth_pass].
    destruct (running (self st0)) eqn:Hrun; [| discriminate].
    destruct (loop_body st0) as [st1 | st1 | e1 st1] eqn:Hbody;
      try discriminate.
    intros Hn.
    destruct (IH st1 st Hn) as (Hloop & Hlen & Hflag & Hexc & Hlog).
    destruct (pass_next st0 st1 Hbody) as (Hlt & Hexc1 & Hlog1).
    pose proof (pass_effect st0) as Heff. cbv zeta in Heff.
    rewrite Hbody in Heff. cbn [flow_state] in Heff.
    destruct Heff as (Hflag1 & _).
    repeat split.
    + intros fuel. change (S n + fuel)%nat with (S (n + fuel)).
      cbn [while_running]. rewrite Hrun, Hbody. apply Hloop.
    + lia.
    + congruence.
    + congruence.
    + congruence.
Qed.

(** C4 (as the code has it): when the body of the [try] raises an
    [Exception] in some pass of [run] (a read fault, a failed conversion or
    a failed [put]), the exception does not leave [run]: the loop ends, the
    exception is in the log, and the last-error slot holds it unless it is
    a [ValueError], which is logged only and leaves the slot as it was.
    All this is done before the wait for the process, so it holds of the
    object whether [run] has returned or that wait is still on; and [run]
    has returned when the unread output fits the pipe. *)
Theorem run_records_loop_failures : forall d n st e st',
  nth_pass n (enter d) = Some st ->
  try_block st = Throw e st' ->
  exc_class e <> BaseException_cls ->
  exists out,
    run d = Some out /\
    match out with
    | Returned _ => unread_fits (self st')
    | Blocked _ => ~ unread_fits (self st')
    | Propagated _ _ => False
    end /\
    In (LogException e) (logger (outcome_state out)) /\
    exception (outcome_state out) = match exc_class e with
                                    | ValueError_cls => exception d
                                    | _ => Some e
                                    end.
Proof.
  intros d n st e st' Hn Htry Hclass.
  destruct (nth_pass_reached n (enter d) st Hn)
    as (Hloop & Hlen & Hflag & Hexc & _).
  destruct (try_throw st e st' Htry) as (Hexc' & _).
  cbn [enter self running set_running exception decoder] in Hlen, Hflag, Hexc.
  unfold run, passes.
  replace (S (List.length (pending (stdout (decoder d)))))
    with (n + S (List.length (pending (stdout (decoder d))) - n))%nat by lia.
  rewrite Hloop. cbn [while_running]. rewrite Hflag.
  unfold loop_body. rewrite Htry.
  destruct (exc_class e) eqn:Hcls; [| | congruence].
  - match goal with
    | |- context [leave ?x] =>
        destruct (leave_cases x) as [(Hfits & Hleave) | (Hover & Hleave)];
          rewrite Hleave
    end;
      (eexists; split; [reflexivity |]);
      (split; [assumption |]); cbn [outcome_state]; split.
    + unfold returned_from. simpl. apply in_or_app. left.
      apply in_or_app. right. left. reflexivity.
    + simpl. congruence.
    + simpl. apply in_or_app. right. left. reflexivity.
    + simpl. congruence.
  - match goal with
    | |- context [leave ?x] =>
        destruct (leave_cases x) as [(Hfits & Hleave) | (Hover & Hleave)];
          rewrite Hleave
    end;
      (eexists; split; [reflexivity |]);
      (split; [assumption |]); cbn [outcome_state]; split.
    + unfold returned_from. simpl. apply in_or_app. left.
      apply in_or_app. right. left. reflexivity.
    + reflexivity.
    + simpl. apply in_or_app. right. left. reflexivity.
    + reflexivity.
Qed.

(** ** The thread and its owner *)

Lemma exec_app : forall s1 s2 t, exec (s1 ++ s2) t = exec s2 (exec s1 t).
Proof.
  induction s1 as [| ev s1 IH]; intros s2 t; simpl; [reflexivity | apply IH].
Qed.

Lemma loop_body_throw_class : forall st e st',
  loop_body st = Throw e st' -> exc_class e = BaseException_cls.
Proof.
  intros st e st'. unfold loop_body.
  destruct (try_block st) as [? | ? | e2 st2]; try discriminate.
  destruct (exc_class e2) eqn:Hclass; try discriminate.
  intros H. inversion H; subst. exact Hclass.
Qed.

(** The body never looks at the flag. *)
Lemma loop_body_ignores_flag : forall b st,
  loop_body (on_self (set_running b) st) =
  match loop_body st with
  | Next st' => Next (on_self (set_running b) st')
  | Break st' => Break (on_self (set_running b) st')
  | Throw e st' => Throw e (on_self (set_running b) st')
  end.
Proof.
  intros b [[r ip w h q s ex [out room wt] lg] k prev].
  unfold loop_body, try_block.
  cbn [on_self self set_running decoder stdout input_width input_height
       frame_index previous_image waited processing_queue
       processing_settings].
  destruct (read (3 * w * h) out) as [[buffer out'] | e0].
  - destruct (Nat.eqb (List.length buffer) 0); [reflexivity |].
    destruct (Image_frombytes w h buffer) as [image | e1].
    + destruct prev as [previous |]; cbn [previous_image on_self].
      * destruct (put _ q) as [q' | e2]; [reflexivity |].
        destruct (exc_class e2); reflexivity.
      * reflexivity.
    + destruct (exc_class e1); reflexivity.
  - destruct (exc_class e0); reflexivity.
Qed.

(** Once the flag is down and [run] is past its first line, a step keeps
    the flag down and publishes no more than the pass in flight allows. *)
Lemma move_after_stop : forall ev t,
  running (self (frame t)) = false -> pc t <> PcEntry ->
  running (self (frame (move ev t))) = false /\
  pc (move ev t) <> PcEntry /\
  exists extra,
    published (move ev t) = published t ++ extra /\
    (List.length extra + in_flight (pc (move ev t)) <= in_flight (pc t))%nat.
Proof.
  intros [|] [p st] Hflag Hpc; cbn [move pc frame] in *.
  - unfold thread_step. cbn [pc frame].
    destruct p; try congruence; cbn [pc frame].
    + rewrite Hflag. cbn [pc frame in_flight]. repeat split;
        [assumption | discriminate |].
      exists []. rewrite app_nil_r. split; [reflexivity | simpl; lia].
    + pose proof (pass_effect st) as Heff. cbv zeta in Heff.
      destruct (loop_body st) as [st' | st' | e st'];
        cbn [flow_state pc frame in_flight] in *;
        destruct Heff as (Hrun & _ & _ & _ & _ & extra & Hitems & Hlen);
        (repeat split; [congruence | discriminate |]);
        exists extra; unfold published; cbn [frame];
        (split; [exact Hitems | lia]).
    + destruct (reap_cases (self st)) as [(_ & Hreap) | (_ & Hreap)];
        rewrite Hreap; cbn [pc frame];
        (repeat split; [exact Hflag | discriminate |]);
        exists []; unfold published; simpl; rewrite app_nil_r;
        (split; [reflexivity | lia]).
    + repeat split; [discriminate |].
      exists []. unfold published. simpl. rewrite app_nil_r.
      split; [reflexivity | lia].
    + repeat split; [exact Hflag | discriminate |].
      exists []. rewrite app_nil_r. split; [reflexivity | simpl; lia].
    + repeat split; [exact Hflag | discriminate |].
      exists []. rewrite app_nil_r. split; [reflexivity | simpl; lia].
  - unfold owner_stop. cbn [pc frame]. repeat split; [assumption |].
    exists []. unfold published. simpl. rewrite app_nil_r.
    split; [reflexivity | lia].
Qed.

Lemma exec_after_stop : forall sched t,
  running (self (frame t)) = false -> pc t <> PcEntry ->
  exists extra,
    published (exec sched t) = published t ++ extra /\
    (List.length extra <= in_flight (pc t))%nat.
Proof.
  induction sched as [| ev rest IH]; intros t Hflag Hpc.
  - exists []. simpl. rewrite app_nil_r. split; [reflexivity | lia].
  - destruct (move_after_stop ev t Hflag Hpc)
      as (Hflag' & Hpc' & e1 & Hpub1 & Hlen1).
    destruct (IH (move ev t) Hflag' Hpc') as (e2 & Hpub2 & Hlen2).
    exists (e1 ++ e2). cbn [exec].
    rewrite Hpub2, Hpub1, <- app_assoc, length_app.
    split; [reflexivity | lia].
Qed.

Lemma move_leaving_well : forall ev t,
  leaving_well t -> leaving_well (move ev t).
Proof.
  intros [|] [p st] Hwell; unfold leaving_well in *; cbn [move pc frame] in *.
  - unfold thread_step. cbn [pc frame].
    destruct p; cbn [pc frame]; try exact Hwell; try exact I.
    + destruct (running (self st)); exact I.
    + destruct (loop_body st) as [st' | st' | e st'] eqn:Hbody;
        cbn [pc]; try exact I.
      exact (loop_body_throw_class st e st' Hbody).
    + destruct (reap_cases (self st)) as [(_ & Hreap) | (_ & Hreap)];
        rewrite Hreap; cbn [pc frame]; [reflexivity | exact I].
  - unfold owner_stop. cbn [pc frame]. destruct p; exact Hwell.
Qed.

Lemma exec_leaving_well : forall sched t,
  leaving_well t -> leaving_well (exec sched t).
Proof.
  induction sched as [| ev rest IH]; intros t Hwell; [exact Hwell |].
  apply IH, move_leaving_well, Hwell.
Qed.

Lemma step_descends : forall t,
  ~ settled t -> (steps_left (thread_step t) < steps_left t)%nat.
Proof.
  intros [p st] Hlive. unfold thread_step, steps_left. cbn [pc frame].
  destruct p; cbn [pc frame enter self set_running decoder on_self stdout].
  - lia.
  - destruct (running (self st)); cbn [pc frame]; lia.
  - destruct (loop_body st) as [st' | st' | e st'] eqn:Hbody; cbn [pc frame].
    + destruct (pass_next st st' Hbody) as (Hlt & _). lia.
    + lia.
    + lia.
  - destruct (reap_cases (self st)) as [(_ & Hreap) | (Hover & Hreap)];
      rewrite Hreap; cbn [pc frame]; [lia |].
    exfalso. apply Hlive. right. split; [reflexivity | exact Hover].
  - lia.
  - exfalso. apply Hlive. left. left. reflexivity.
  - exfalso. apply Hlive. left. right. eexists. reflexivity.
Qed.

Lemma halted_move : forall ev t, halted t -> halted (move ev t).
Proof.
  intros [|] [p st] [Hdone | (e & Hraised)]; cbn [pc] in *; subst;
    unfold halted; cbn; eauto.
Qed.

Lemma halted_exec : forall sched t, halted t -> halted (exec sched t).
Proof.
  induction sched as [| ev rest IH]; intros t Ht; [exact Ht |].
  apply IH, halted_move, Ht.
Qed.

Lemma stuck_move : forall ev t, stuck t -> stuck (move ev t).
Proof.
  intros [|] [p st] (Hwait & Hover); cbn [pc frame] in *; subst p.
  - cbn [move]. unfold thread_step. cbn [pc frame].
    destruct (reap_cases (self st)) as [(Hfits & _) | (_ & Hreap)];
      [contradiction |].
    rewrite Hreap. split; [reflexivity | exact Hover].
  - split; [reflexivity | exact Hover].
Qed.

Lemma settled_move : forall ev t, settled t -> settled (move ev t).
Proof.
  intros ev t [Hhalt | Hstuck]; [left; apply halted_move | right; apply stuck_move];
    assumption.
Qed.

Lemma settled_exec : forall sched t, settled t -> settled (exec sched t).
Proof.
  induction sched as [| ev rest IH]; intros t Ht; [exact Ht |].
  apply IH, settled_move, Ht.
Qed.

Lemma settled_dec : forall t, settled t \/ ~ settled t.
Proof.
  intros [p st]. unfold settled, halted, stuck. cbn [pc frame].
  destruct p;
    try (right; intros [[H | (e & H)] | (H & _)]; discriminate).
  - destruct (reap_cases (self st)) as [(Hfits & _) | (Hover & _)].
    + right. intros [[H | (e & H)] | (_ & Hover)];
        [discriminate | discriminate | contradiction].
    + left. right. split; [reflexivity | exact Hover].
  - left. left. left. reflexivity.
  - left. left. right. eexists. reflexivity.
Qed.

(** Given [steps_left] steps, the thread moves no more, stop calls or
    not. *)
Lemma exec_settles : forall sched t,
  (steps_left t <= ticks sched)%nat -> settled (exec sched t).
Proof.
  induction sched as [| ev rest IH]; intros t Hsteps.
  - cbn [ticks exec] in *. destruct t as [p st].
    unfold steps_left, settled, halted in *. cbn [pc] in *.
    destruct p; try lia.
    + left. left. reflexivity.
    + left. right. eexists. reflexivity.
  - destruct (settled_dec t) as [Ht | Hlive].
    + apply (settled_exec (ev :: rest)), Ht.
    + destruct ev; cbn [exec move ticks] in *.
      * apply IH. pose proof (step_descends t Hlive). lia.
      * apply IH. destruct t as [p st]. unfold owner_stop, steps_left in *.
        cbn [pc frame on_self self stop set_running decoder] in *.
        exact Hsteps.
Qed.

(** The loop of [run] is the thread left alone. *)
Lemma loop_as_ticks : forall fuel st st',
  while_running fuel st = Some (Left st') ->
  exists n, exec (repeat Tick n) (mkThread PcWhile st) = mkThread PcWait st'.
Proof.
  induction fuel as [| fuel IH]; intros st st'; [discriminate |].
  cbn [while_running].
  destruct (running (self st)) eqn:Hrun.
  - destruct (loop_body st) as [st1 | st1 | e st1] eqn:Hbody.
    + intros Hloop. destruct (IH st1 st' Hloop) as (n & Hn).
      exists (S (S n)). cbn [repeat exec move].
      unfold thread_step at 2. cbn [pc frame]. rewrite Hrun.
      unfold thread_step at 1. cbn [pc frame]. rewrite Hbody. exact Hn.
    + intros H. inversion H; subst.
      exists 2%nat. cbn [repeat exec move].
      unfold thread_step at 2. cbn [pc frame]. rewrite Hrun.
      unfold thread_step at 1. cbn [pc frame]. rewrite Hbody. reflexivity.
    + discriminate.
  - intros H. inversion H; subst.
    exists 1%nat. cbn [repeat exec move].
    unfold thread_step. cbn [pc frame]. rewrite Hrun. reflexivity.
Qed.

Lemma run_as_ticks : forall d d',
  run d = Some (Returned d') ->
  exists n st',
    exec (Tick :: repeat Tick n) (spawn d) = mkThread PcDone st' /\
    self st' = d'.
Proof.
  intros d d'. unfold run.
  destruct (while_running (passes d) (enter d)) as [[st | e st] |] eqn:Hloop;
    try discriminate.
  unfold leave. destruct (reap (self st)) as [d1 |] eqn:Hreap;
    [| discriminate].
  intros H. inversion H; subst; clear H.
  destruct (loop_as_ticks _ _ _ Hloop) as (n & Hn).
  exists (n + 2)%nat,
         (on_self (set_running false) (on_self (fun _ => d1) st)).
  split; [| reflexivity].
  rewrite repeat_app. cbn [exec move]. rewrite exec_app.
  unfold thread_step at 1, spawn. cbn [pc frame self].
  rewrite Hn. cbn [repeat exec move].
  unfold thread_step. cbn [pc frame]. rewrite Hreap. reflexivity.
Qed.

(** With the flag down, a thread that is not inside a pass moves without
    touching queue or pipe and does not enter a pass. *)
Lemma move_outside_pass : forall ev t,
  running (self (frame t)) = false -> pc t <> PcEntry -> pc t <> PcBody ->
  traffic (move ev t) = traffic t /\ pc (move ev t) <> PcBody.
Proof.
  intros [|] [p st] Hflag Hentry Hbody; cbn [move pc frame] in *.
  - unfold thread_step. cbn [pc frame].
    destruct p; try congruence; cbn [pc frame]; rewrite ?Hflag;
      try (destruct (reap_cases (self st)) as [(_ & Hreap) | (_ & Hreap)];
           rewrite Hreap; cbn [pc frame]);
      split; (reflexivity || discriminate).
  - unfold owner_stop. cbn [pc frame]. split; [reflexivity | exact Hbody].
Qed.

Lemma step_leaves_pass : forall t,
  pc t = PcBody -> pc (thread_step t) <> PcBody.
Proof.
  intros [p st] Hbody. cbn [pc] in Hbody. subst p.
  unfold thread_step. cbn [pc frame].
  destruct (loop_body st); discriminate.
Qed.

Lemma stop_during_pass : forall t,
  pc t = PcBody ->
  traffic (thread_step (owner_stop t)) = traffic (thread_step t).
Proof.
  intros [p st] Hbody. cbn [pc] in Hbody. subst p.
  unfold thread_step, owner_stop, stop, traffic. cbn [pc frame].
  rewrite loop_body_ignores_flag. destruct (loop_body st); reflexivity.
Qed.

(** Once the flag is down and [run] is past its first line, the thread
    touches queue and pipe in the pass in flight, if there is one, and never
    again. *)
Lemma traffic_after_stop : forall sched t,
  running (self (frame t)) = false -> pc t <> PcEntry ->
  traffic (exec sched t) = traffic t \/
  (pc t = PcBody /\ traffic (exec sched t) = traffic (thread_step t)).
Proof.
  induction sched as [| ev rest IH]; intros t Hflag Hpc; [left; reflexivity |].
  destruct (move_after_stop ev t Hflag Hpc) as (Hflag' & Hpc' & _).
  cbn [exec].
  assert (Hcase : pc t = PcBody \/ pc t <> PcBody)
    by (destruct (pc t); (left; reflexivity) || (right; discriminate)).
  destruct Hcase as [Hbody | Hout].
  - destruct ev; cbn [move] in *.
    + right. split; [exact Hbody |].
      destruct (IH _ Hflag' Hpc') as [Hsame | (Hagain & _)]; [exact Hsame |].
      exfalso. exact (step_leaves_pass t Hbody Hagain).
    + destruct (IH _ Hflag' Hpc') as [Hsame | (_ & Hpass)].
      * left. rewrite Hsame. reflexivity.
      * right. split; [exact Hbody |].
        rewrite Hpass. apply stop_during_pass, Hbody.
  - destruct (move_outside_pass ev t Hflag Hpc Hout) as (Hquiet & Hout').
    left. destruct (IH _ Hflag' Hpc') as [Hsame | (Hagain & _)].
    + rewrite Hsame. exact Hquiet.
    + contradiction.
Qed.

(** C6: [stop] called while the loop runs clears the flag and leaves the
    process handle alone.  The thread sees the cleared flag when it next
    evaluates the loop condition: a pass in flight completes as it would
    have without the call, and whatever the schedule from the call on, the
    thread does no more to queue and pipe than that one pass does, which
    publishes at most one item. *)
Theorem stop_ends_after_pass_in_flight : forall t sched,
  pc t = PcWhile \/ pc t = PcBody ->
  running (self (frame (owner_stop t))) = false /\
  decoder (self (frame (owner_stop t))) = decoder (self (frame t)) /\
  (pc t = PcWhile -> pc (thread_step (owner_stop t)) = PcWait) /\
  (pc t = PcBody ->
     traffic (thread_step (owner_stop t)) = traffic (thread_step t)) /\
  (traffic (exec sched (owner_stop t)) = traffic t \/
   (pc t = PcBody /\
    traffic (exec sched (owner_stop t)) = traffic (thread_step t))) /\
  exists extra,
    published (exec sched (owner_stop t)) = published t ++ extra /\
    (List.length extra <= in_flight (pc t))%nat /\
    (List.length extra <= 1)%nat.
Proof.
  intros [p st] sched Hloop. cbn [pc] in Hloop.
  assert (Hpast : pc (owner_stop (mkThread p st)) <> PcEntry).
  { cbn [owner_stop pc]. destruct Hloop; subst; discriminate. }
  split; [reflexivity |]. split; [reflexivity |].
  split; [| split; [| split]].
  - cbn [pc]. intros ->. reflexivity.
  - apply stop_during_pass.
  - destruct (traffic_after_stop sched (owner_stop (mkThread p st))
                eq_refl Hpast) as [Hsame | (Hbody & Hpass)].
    + left. exact Hsame.
    + right. cbn [owner_stop pc] in Hbody. split; [exact Hbody |].
      rewrite Hpass. apply stop_during_pass. exact Hbody.
  - destruct (exec_after_stop sched (owner_stop (mkThread p st))
                eq_refl Hpast) as (extra & Hpub & Hlen).
    exists extra. split; [exact Hpub |]. cbn [owner_stop pc] in Hlen.
    split; [exact Hlen |].
    destruct Hloop; subst; cbn [in_flight] in Hlen; lia.
Qed.

(** C7: every way out of the loop leads into [self.decoder.wait()], and
    [run] returns only after that call has returned: whenever [run] has
    returned, on its own or under any schedule of stop calls, the process
    has been waited for.  The call returns, and [run] with it, when the
    output left unread fits the pipe; otherwise the thread stays in the
    wait.  The one way past the wait is an exception that neither handler
    catches. *)
Theorem process_waited_on_every_exit : forall d,
  (exists out,
     run d = Some out /\
     match out with
     | Returned d' =>
         waited (decoder d') = true /\ running d' = false /\ unread_fits d'
     | Blocked d' => ~ unread_fits d'
     | Propagated e _ => exc_class e = BaseException_cls
     end) /\
  (forall sched,
     pc (exec sched (spawn d)) = PcDone ->
     waited (decoder (self (frame (exec sched (spawn d))))) = true) /\
  (forall sched,
     (steps_left (spawn d) <= ticks sched)%nat ->
     pc (exec sched (spawn d)) = PcDone \/
     stuck (exec sched (spawn d)) \/
     exists e, pc (exec sched (spawn d)) = PcRaised e /\
               exc_class e = BaseException_cls).
Proof.
  intros d. split; [| split].
  - destruct (run_total d) as (out & Hout). exists out. split; [exact Hout |].
    unfold run in Hout.
    destruct (while_running (passes d) (enter d)) as [[st | e st] |] eqn:Hloop;
      [| | discriminate].
    + destruct (leave_cases (self st)) as [(Hfits & Hleave) | (Hover & Hleave)];
        rewrite Hleave in Hout; inversion Hout; subst; clear Hout.
      * repeat split. exact Hfits.
      * exact Hover.
    + inversion Hout; subst; clear Hout.
      exact (while_uncaught _ _ _ _ Hloop).
  - intros sched Hdone.
    pose proof (exec_leaving_well sched (spawn d) I) as Hwell.
    unfold leaving_well in Hwell. rewrite Hdone in Hwell. exact Hwell.
  - intros sched Hsteps.
    pose proof (exec_leaving_well sched (spawn d) I) as Hwell.
    destruct (exec_settles sched (spawn d) Hsteps)
      as [[Hdone | (e & Hraised)] | Hstuck].
    + left. exact Hdone.
    + right. right. exists e. split; [exact Hraised |].
      unfold leaving_well in Hwell. rewrite Hraised in Hwell. exact Hwell.
    + right. left. exact Hstuck.
Qed.

(** C10: a [stop] that arrives before [run] has executed its first line is
    lost: that line sets the flag, so the thread goes on exactly as it does
    with no call at all, and left alone it ends where [run] ends. *)
Theorem stop_before_run_is_lost : forall d sched,
  exec (StopCall :: Tick :: sched) (spawn d) = exec (Tick :: sched) (spawn d) /\
  running (self (frame (exec [StopCall; Tick] (spawn d)))) = true /\
  pc (exec [StopCall; Tick] (spawn d)) = PcWhile /\
  (forall d',
     run d = Some (Returned d') ->
     exists n st',
       exec (StopCall :: Tick :: repeat Tick n) (spawn d) =
         mkThread PcDone st' /\
       self st' = d').
Proof.
  intros d sched. repeat split.
  intros d' Hrun. destruct (run_as_ticks d d' Hrun) as (n & st' & Hn & Hself).
  exists n, st'. split; [exact Hn | exact Hself].
Qed.

(** ** The constructor *)

Lemma dict_get_absent : forall d key,
  ~ In key (map fst d) -> dict_get d key = None.
Proof.
  induction d as [| [k v] rest IH]; intros key Hout; [reflexivity |].
  cbn [dict_get]. destruct (String.eqb_spec k key) as [Heq | Hne].
  - exfalso. apply Hout. left. exact Heq.
  - apply IH. intros Hin. apply Hout. right. exact Hin.
Qed.

(** The command carries [-loglevel] followed by what the table gives for the
    lower-cased host level: the table's value for each of its seven levels,
    [info] when the host level is not set at all, and no value ([None]) for
    a level the table does not list. *)
Lemma loglevel_taken_from_table : forall environ path rate,
  let level := lower (dict_get_default environ "LOGURU_LEVEL" "INFO") in
  LOGURU_FFMPEG_LOGLEVELS =
    [("trace", "trace"); ("debug", "debug"); ("info", "info");
     ("success", "info"); ("warning", "warning"); ("error", "error");
     ("critical", "fatal")] /\
  cmd_global_args (decode_command environ path rate) =
    [Some "-hide_banner"; Some "-nostats"; Some "-loglevel";
     loglevel_arg environ] /\
  (forall host process,
     In (host, process) LOGURU_FFMPEG_LOGLEVELS -> level = host ->
     loglevel_arg environ = Some process) /\
  (dict_get environ "LOGURU_LEVEL" = None ->
     loglevel_arg environ = Some "info") /\
  (~ In level (map fst LOGURU_FFMPEG_LOGLEVELS) ->
     loglevel_arg environ = None).
Proof.
  intros environ path rate level.
  split; [reflexivity |]. split; [reflexivity |]. split; [| split].
  - intros host process Hin Hlevel. unfold loglevel_arg. fold level.
    rewrite Hlevel. cbn [LOGURU_FFMPEG_LOGLEVELS In] in Hin.
    repeat (destruct Hin as [Hin | Hin];
            [inversion Hin; subst; reflexivity |]).
    contradiction.
  - intros Hunset. unfold loglevel_arg, dict_get_default.
    rewrite Hunset. reflexivity.
  - intros Hout. unfold loglevel_arg. fold level.
    apply dict_get_absent, Hout.
Qed.

Lemma launch_with_level : forall environ popen path rate level,
  loglevel_arg environ = Some level ->
  subprocess_Popen popen (decode_command environ path rate) =
  match popen (decode_command environ path rate) with
  | Raise e => Raise e
  | Ok (out, room) => Ok (mkPopen out room false)
  end.
Proof.
  intros environ popen path rate level Hlevel. unfold subprocess_Popen.
  cbn [decode_command cmd_global_args existsb orb]. rewrite Hlevel.
  reflexivity.
Qed.

Lemma launch_without_level : forall environ popen path rate,
  loglevel_arg environ = None ->
  subprocess_Popen popen (decode_command environ path rate) =
  Raise type_error.
Proof.
  intros environ popen path rate Hlevel. unfold subprocess_Popen.
  cbn [decode_command cmd_global_args existsb orb]. rewrite Hlevel.
  reflexivity.
Qed.

(** C3: for a host level the table does not list, here VERBOSE, the lookup
    gives [None] and not [info]: the [None] goes into the argument list, the
    launch refuses it with a [TypeError], and the constructor fails whatever
    the operating system would have answered; no process is launched, with
    [info] or any other level. *)
Theorem unlisted_level_fails_the_launch :
  forall popen path width height (rate : FrameRate) queue settings,
  loglevel_arg [("LOGURU_LEVEL", "VERBOSE")] = None /\
  loglevel_arg [("LOGURU_LEVEL", "VERBOSE")] <> Some "info" /\
  cmd_global_args (decode_command [("LOGURU_LEVEL", "VERBOSE")] path rate) =
    [Some "-hide_banner"; Some "-nostats"; Some "-loglevel"; None] /\
  init [("LOGURU_LEVEL", "VERBOSE")] popen path width height rate queue
       settings = Raise type_error.
Proof.
  intros popen path width height rate queue settings.
  split; [reflexivity |]. split; [discriminate |]. split; [reflexivity |].
  unfold init. rewrite launch_without_level by reflexivity. reflexivity.
Qed.

(** An object the constructor returns is not running, has an empty
    last-error slot, holds the caller's queue as it was, and owns a process
    that was launched with a level of the table. *)
Lemma init_started :
  forall environ popen path width height rate queue settings d,
  init environ popen path width height rate queue settings = Ok d ->
  running d = false /\ exception d = None /\
  processing_queue d = queue /\ logger d = [] /\
  subprocess_Popen popen (decode_command environ path rate) =
    Ok (decoder d) /\
  loglevel_arg environ <> None.
Proof.
  intros environ popen path width height rate queue settings d.
  unfold init.
  destruct (subprocess_Popen popen (decode_command environ path rate))
    as [process | e] eqn:Hlaunch; [| discriminate].
  intros H. inversion H; subst; clear H. repeat split.
  intros Hnone.
  rewrite (launch_without_level environ popen path rate Hnone) in Hlaunch.
  discriminate.
Qed.

(** C8: when the process cannot be started, the exception of the launch
    leaves the constructor, and the caller's [start] is not reached: the
    caller holds the exception and no decoder object, no thread has been
    started, and the shared queue is as it was.  The last-error slot is not
    the way the failure travels: whatever the constructor does return has
    that slot empty. *)
Theorem launch_error_leaves_constructor :
  forall environ popen path width height rate settings ignore world e,
  subprocess_Popen popen (decode_command environ path rate) = Raise e ->
  exists world',
    construct_and_start environ popen path width height rate settings
                        ignore world = (Raise e, world') /\
    started world' = started world /\
    shared_queue world' = shared_queue world /\
    (forall d,
       fst (construct environ popen path width height rate settings
                      ignore world) <> Ok d) /\
    (forall environ' popen' d,
       fst (construct environ' popen' path width height rate settings
                      ignore world) = Ok d ->
       exception d = None /\ processing_queue d = shared_queue world).
Proof.
  intros environ popen path width height rate settings ignore world e
         Hlaunch.
  unfold construct_and_start, construct, init. rewrite Hlaunch.
  eexists. split; [reflexivity |].
  split; [destruct ignore; reflexivity |].
  split; [destruct ignore; reflexivity |].
  split; [intros d; cbn [fst]; discriminate |].
  intros environ' popen' d. cbn [fst].
  destruct (subprocess_Popen popen' (decode_command environ' path rate));
    [| discriminate].
  intros H. inversion H; subst; clear H.
  split; [reflexivity | destruct ignore; reflexivity].
Qed.

(** * Further properties *)

(** ** The log level lookup *)

Lemma lower_ascii_idem : forall c, lower_ascii (lower_ascii c) = lower_ascii c.
Proof.
  intros [[] [] [] [] [] [] [] []]; reflexivity.
Qed.

Lemma lower_idem : forall s, lower (lower s) = lower s.
Proof.
  induction s as [| c rest IH]; cbn [lower]; [reflexivity |].
  rewrite lower_ascii_idem, IH. reflexivity.
Qed.

Lemma dict_get_some : forall d key v,
  dict_get d key = Some v -> In (key, v) d.
Proof.
  induction d as [| [k w] rest IH]; intros key v; cbn [dict_get];
    [discriminate |].
  destruct (String.eqb_spec k key) as [Heq | Hne].
  - intros H. inversion H; subst. left. reflexivity.
  - intros H. right. apply IH, H.
Qed.

Lemma dict_get_none : forall d key,
  dict_get d key = None -> ~ In key (map fst d).
Proof.
  induction d as [| [k w] rest IH]; intros key; cbn [dict_get map fst].
  - intros _ [].
  - destruct (String.eqb_spec k key) as [Heq | Hne]; [discriminate |].
    intros Hrest [Hhead | Htail]; [contradiction | exact (IH key Hrest Htail)].
Qed.

(** X1: the lookup does not tell capitals from small letters: a host level
    and its lower-case spelling give the same [-loglevel] value, whatever
    else the environment holds. *)
Theorem loglevel_ignores_case : forall level rest,
  loglevel_arg (("LOGURU_LEVEL", level) :: rest) =
  loglevel_arg (("LOGURU_LEVEL", lower level) :: rest).
Proof.
  intros level rest. unfold loglevel_arg, dict_get_default.
  cbn [dict_get]. rewrite String.eqb_refl, lower_idem. reflexivity.
Qed.

(** X2: whatever the environment, the value after [-loglevel] is one of the
    six process levels, the one the table pairs with the lower-cased host
    level, or it is missing, and it is missing exactly when the table does
    not list that level; the host-only names success and critical are never
    passed on. *)
Theorem loglevel_is_a_process_level : forall environ,
  match loglevel_arg environ with
  | Some v =>
      In (lower (dict_get_default environ "LOGURU_LEVEL" "INFO"), v)
         LOGURU_FFMPEG_LOGLEVELS /\
      In v process_levels /\ v <> "success" /\ v <> "critical"
  | None =>
      ~ In (lower (dict_get_default environ "LOGURU_LEVEL" "INFO"))
           (map fst LOGURU_FFMPEG_LOGLEVELS)
  end.
Proof.
  intros environ. unfold loglevel_arg.
  set (level := lower (dict_get_default environ "LOGURU_LEVEL" "INFO")).
  destruct (dict_get LOGURU_FFMPEG_LOGLEVELS level) as [v |] eqn:Hget.
  - apply dict_get_some in Hget. split; [exact Hget |].
    cbn [LOGURU_FFMPEG_LOGLEVELS In] in Hget.
    repeat (destruct Hget as [Hget | Hget];
            [inversion Hget; subst v;
             (split; [cbn; tauto | split; discriminate]) |]).
    contradiction.
  - apply dict_get_none, Hget.
Qed.

(** ** [run] on any sound stream *)

Lemma pair_up_none_length : forall images k s,
  List.length (pair_up k None images s) = Nat.pred (List.length images).
Proof.
  intros [| image rest] k s; [reflexivity |].
  cbn [pair_up app List.length Nat.pred]. apply pair_up_length.
Qed.

(** X3: on sound collaborators and a valid geometry whose chunk size the
    interpreter can index, [run] drains the stream whatever its length, leaves the last-error slot alone, and
    publishes one item less than the stream holds full frames (none for a
    stream shorter than two frames); the log says "depleted" when the length
    is a multiple of the frame size and carries the imaging layer's
    ValueError otherwise. *)
Theorem run_counts_full_frames : forall d,
  0 < input_width d -> 0 < input_height d -> chunk_fits d ->
  sound_pipe (stdout (decoder d)) -> sound_queue (processing_queue d) ->
  exists d' new,
    run d = Some (Returned d') /\
    items (processing_queue d') = items (processing_queue d) ++ new /\
    Z.of_nat (List.length new) =
      Z.max (Z.of_nat (List.length (pending (stdout (decoder d))))
             / (3 * input_width d * input_height d) - 1) 0 /\
    pending (stdout (decoder d')) = [] /\
    exception d' = exception d /\
    logger d' =
      logger d ++
      [ (if Z.of_nat (List.length (pending (stdout (decoder d))))
            mod (3 * input_width d * input_height d) =? 0
         then LogDebug "Decoding queue depleted"
         else LogException (ValueError "not enough image data"));
        LogDebug "Decoder thread exiting" ].
Proof.
  intros d Hw Hh Hfit Hpipe Hq.
  pose proof (chunk_size_pos _ _ Hw Hh) as Hpos.
  set (size := 3 * input_width d * input_height d) in Hpos |- *.
  destruct (split_frames (Z.to_nat size) ltac:(lia) _
              (pending (stdout (decoder d))) (Nat.le_refl _))
    as (frames & tail & Hcat & Hall & Ht & Hlen).
  assert (Hz : Z.of_nat (List.length (pending (stdout (decoder d)))) =
               size * Z.of_nat (List.length frames) +
               Z.of_nat (List.length tail)).
  { rewrite Hlen. lia. }
  assert (Hdiv : Z.of_nat (List.length (pending (stdout (decoder d)))) / size
                 = Z.of_nat (List.length frames)).
  { symmetry. apply (Z.div_unique _ size _ (Z.of_nat (List.length tail)));
      [left; lia | exact Hz]. }
  assert (Hmod : Z.of_nat (List.length (pending (stdout (decoder d))))
                   mod size = Z.of_nat (List.length tail)).
  { symmetry. apply (Z.mod_unique _ size (Z.of_nat (List.length frames)));
      [left; lia | exact Hz]. }
  destruct (run_frames d frames tail Hw Hh Hfit Hpipe Hq)
    as (d' & Hrun & Hitems & Hexc & Hlog & Hpend & _).
  { eapply Forall_impl; [| exact Hall]. cbv beta. fold size. intros f Hf. lia. }
  { exact Hcat. }
  { fold size. lia. }
  exists d', (pair_up 0 None
                (map (image_of (input_width d) (input_height d)) frames)
                (processing_settings d)).
  split; [exact Hrun |]. split; [exact Hitems |].
  split; [| split; [exact Hpend | split; [exact Hexc |]]].
  - rewrite Hdiv, pair_up_none_length, length_map. lia.
  - rewrite Hlog, Hmod. destruct tail as [| b tail']; reflexivity.
Qed.

(** X8: constructor and [run] together: when the host level is one of the
    table, the process starts and delivers N full frames of a size the
    interpreter can index, the constructed decoder, once run, has put the
    N-1 pairs behind what the caller's queue already held, reports
    depletion, has waited for the process and has no error to show. *)
Theorem init_then_run :
  forall environ popen path width height rate queue settings level out room
         frames,
  loglevel_arg environ = Some level ->
  popen (decode_command environ path rate) = Ok (out, room) ->
  0 < width -> 0 < height -> 3 * width * height <= PY_SSIZE_T_MAX ->
  sound_pipe out -> sound_queue queue ->
  Forall (fun f => Z.of_nat (List.length f) = 3 * width * height) frames ->
  pending out = List.concat frames ->
  exists d d',
    init environ popen path width height rate queue settings = Ok d /\
    run d = Some (Returned d') /\
    items (processing_queue d') =
      items queue ++
      pair_up 0 None (map (image_of width height) frames) settings /\
    exception d' = None /\
    logger d' = [LogDebug "Decoding queue depleted";
                 LogDebug "Decoder thread exiting"] /\
    waited (decoder d') = true /\
    running d' = false.
Proof.
  intros environ popen path width height rate queue settings level out room
         frames Hlevel Hlaunch Hw Hh Hfit Hpipe Hq Hall Hpend.
  unfold init. rewrite (launch_with_level _ _ _ _ level Hlevel), Hlaunch.
  set (d := mkDecoder false path width height queue settings None
                      (mkPopen out room false) []).
  destruct (run_frames d frames [] Hw Hh Hfit Hpipe Hq Hall)
    as (d' & Hrun & Hitems & Hexc & Hlog & _ & Hwait & Hflag).
  { cbn. rewrite app_nil_r. exact Hpend. }
  { apply (chunk_size_pos width height Hw Hh). }
  exists d, d'. repeat split; assumption.
Qed.

(** ** The order of the published items, whatever happens *)

Lemma look_back_snoc : forall images previous image,
  look_back previous (images ++ [image]) = Some image.
Proof.
  intros images previous image. unfold look_back.
  rewrite fold_left_app. reflexivity.
Qed.

Lemma pair_up_snoc : forall images k previous image s,
  pair_up k previous (images ++ [image]) s =
  pair_up k previous images s ++
  match look_back previous images with
  | Some p => [(k + Z.of_nat (List.length images), (p, image), s)]
  | None => []
  end.
Proof.
  induction images as [| first rest IH]; intros k previous image s.
  - cbn [app pair_up look_back fold_left List.length Z.of_nat].
    rewrite Z.add_0_r, app_nil_r. reflexivity.
  - cbn [app pair_up]. rewrite (IH (k + 1) (Some first) image s).
    rewrite <- app_assoc.
    change (look_back previous (first :: rest))
      with (look_back (Some first) rest).
    replace (k + 1 + Z.of_nat (List.length rest))
      with (k + Z.of_nat (List.length (first :: rest)))
      by (cbn [List.length]; lia).
    reflexivity.
Qed.

Lemma pair_up_settings : forall images k previous s item,
  In item (pair_up k previous images s) -> snd item = s.
Proof.
  induction images as [| image rest IH]; intros k previous s item;
    cbn [pair_up]; [intros [] |].
  intros Hin. apply in_app_or in Hin. destruct Hin as [Hhead | Htail].
  - destruct previous; [| destruct Hhead].
    destruct Hhead as [Heq | []]. subst item. reflexivity.
  - exact (IH _ _ _ _ Htail).
Qed.

(** A pass keeps queue and locals in agreement. *)
Lemma tidy_pass : forall base s st,
  tidy base s st -> tidy base s (flow_state (loop_body st)).
Proof.
  intros base s st (Hset & images & Hitems & Hindex & Hslot).
  assert (Hkeep : forall f : VideoDecoder -> VideoDecoder,
            (forall d, processing_settings (f d) = processing_settings d) ->
            (forall d, processing_queue (f d) = processing_queue d) ->
            tidy base s (on_self f st)).
  { intros f Hf1 Hf2. unfold tidy. destruct st as [d k prev].
    cbn [on_self self frame_index previous_image] in *.
    rewrite Hf1, Hf2. split; [exact Hset |]. exists images. auto. }
  pass_cases st; try destruct (exc_class _);
    cbn [flow_state];
    try (apply Hkeep; intros; reflexivity);
    try (split; [exact Hset | exists images; auto]; fail).
  - (* the pass published an item *)
    unfold tidy.
    cbn [self set_processing_queue on_self set_decoder processing_settings
         processing_queue items frame_index previous_image].
    split; [exact Hset |]. exists (images ++ [image]).
    rewrite pair_up_snoc, <- Hslot, length_app, Hitems, Hindex, Hset.
    rewrite look_back_snoc, <- app_assoc. cbn [List.length Z.add].
    split; [reflexivity | split; [lia | reflexivity]].
  - (* the first frame: nothing to publish *)
    unfold tidy.
    cbn [self set_processing_queue on_self set_decoder processing_settings
         processing_queue items frame_index previous_image].
    split; [exact Hset |]. exists (images ++ [image]).
    rewrite pair_up_snoc, <- Hslot, length_app, app_nil_r, Hindex.
    rewrite look_back_snoc. cbn [List.length].
    split; [exact Hitems | split; [lia | reflexivity]].
Qed.

Lemma tidy_move : forall base s ev t,
  tidy_thread base s t -> tidy_thread base s (move ev t).
Proof.
  intros base s [|] [p st] (Htidy & Hentry); cbn [move pc frame] in *.
  - unfold thread_step, tidy_thread. cbn [pc frame].
    destruct p; cbn [pc frame].
    + split; [| discriminate].
      destruct Htidy as (Hset & _). unfold tidy, enter.
      cbn [self set_running processing_settings processing_queue
           frame_index previous_image].
      split; [exact Hset |]. exists []. rewrite (Hentry eq_refl), app_nil_r.
      repeat split.
    + destruct (running (self st)); cbn [pc frame];
        (split; [exact Htidy | discriminate]).
    + pose proof (tidy_pass base s st Htidy) as Hpass.
      destruct (loop_body st); cbn [flow_state pc frame] in *;
        (split; [exact Hpass | discriminate]).
    + destruct (reap_cases (self st)) as [(_ & Hreap) | (_ & Hreap)];
        rewrite Hreap; cbn [pc frame];
        (split; [| discriminate]);
        destruct Htidy as (Hset & images & Hitems & Hidx & Hslot);
        (split; [exact Hset |]); exists images; auto.
    + split; [| discriminate].
      destruct Htidy as (Hset & images & Hitems & Hidx & Hslot).
      split; [exact Hset |]. exists images. auto.
    + split; [exact Htidy | discriminate].
    + split; [exact Htidy | discriminate].
  - unfold owner_stop, tidy_thread. cbn [pc frame]. split.
    + destruct Htidy as (Hset & images & Hitems & Hidx & Hslot).
      split; [exact Hset |]. exists images. auto.
    + exact Hentry.
Qed.

Lemma tidy_exec : forall base s sched t,
  tidy_thread base s t -> tidy_thread base s (exec sched t).
Proof.
  intros base s. induction sched as [| ev rest IH]; intros t Ht; [exact Ht |].
  apply IH, tidy_move, Ht.
Qed.

(** The pairs of a run of images: indices 1, 2, ... with no gap, the
    settings in every item, and each item's current image the next item's
    previous one. *)
Lemma pair_up_shape : forall images s,
  let new := pair_up 0 None images s in
  map item_index new = map Z.of_nat (seq 1 (List.length new)) /\
  (forall item, In item new -> snd item = s) /\
  (forall i a b,
     nth_error new i = Some a -> nth_error new (S i) = Some b ->
     snd (snd (fst a)) = fst (snd (fst b))).
Proof.
  intros images s new. split; [| split].
  - subst new. destruct images as [| first rest]; [reflexivity |].
    cbn [pair_up app Z.add]. rewrite pair_up_length.
    exact (pair_up_indices rest 1 first s).
  - intros item Hin. exact (pair_up_settings _ _ _ _ _ Hin).
  - subst new. destruct images as [| first rest];
      [intros [| i] a b Ha; discriminate |].
    cbn [pair_up app Z.add]. intros i a b Ha Hb.
    assert (Hi : (S i < List.length rest)%nat).
    { rewrite <- (pair_up_length rest 1 first s).
      apply nth_error_Some. rewrite Hb. discriminate. }
    rewrite (pair_up_nth rest 1 first s i first) in Ha by lia.
    rewrite (pair_up_nth rest 1 first s (S i) first) in Hb by lia.
    inversion Ha; inversion Hb; subst. reflexivity.
Qed.

(** X4: whatever the pipe and the queue do and whenever the owner calls
    [stop], what the thread has added to the queue at any moment is a gapless
    run: the indices are 1, 2, 3, ... in this order, every item carries the
    decoder's settings, and each item's current image is the previous image
    of the item after it. *)
Theorem published_items_in_order : forall d sched,
  exists new,
    published (exec sched (spawn d)) = items (processing_queue d) ++ new /\
    map item_index new = map Z.of_nat (seq 1 (List.length new)) /\
    (forall item, In item new -> snd item = processing_settings d) /\
    (forall i a b,
       nth_error new i = Some a -> nth_error new (S i) = Some b ->
       snd (snd (fst a)) = fst (snd (fst b))).
Proof.
  intros d sched.
  destruct (tidy_exec (items (processing_queue d)) (processing_settings d)
              sched (spawn d))
    as ((_ & images & Hitems & _) & _).
  { split; [| reflexivity]. split; [reflexivity |].
    exists []. cbn. rewrite app_nil_r. repeat split. }
  exists (pair_up 0 None images (processing_settings d)).
  split; [exact Hitems |]. apply pair_up_shape.
Qed.

(** ** How a run can end *)

Lemma pass_break : forall st st',
  loop_body st = Break st' ->
  exists r,
    logger (self st') = logger (self st) ++ [r] /\
    exception (self st') = slot_after r (exception (self st)) /\
    (r = LogDebug "Decoding queue depleted" \/
     exists e, r = LogException e /\ exc_class e <> BaseException_cls).
Proof.
  intros st st'.
  pass_cases st; try (destruct (exc_class _) eqn:Hcls); try discriminate;
    intros H; inversion H; subst; clear H; eexists;
    cbn [self on_self log set_exception set_decoder logger exception];
    (split; [reflexivity |]);
    (split;
     [ unfold slot_after; rewrite ?Hcls; reflexivity
     | first [ left; reflexivity
             | right; eexists; split; [reflexivity | congruence] ] ]).
Qed.

Lemma pass_throw : forall st e st',
  loop_body st = Throw e st' ->
  exc_class e = BaseException_cls /\
  logger (self st') = logger (self st) /\
  exception (self st') = exception (self st).
Proof.
  intros st e st' Hbody.
  split; [exact (loop_body_throw_class st e st' Hbody) |].
  unfold loop_body in Hbody.
  destruct (try_block st) as [? | ? | e2 st2] eqn:Htry; try discriminate.
  destruct (exc_class e2); try discriminate.
  inversion Hbody; subst.
  destruct (try_throw st e st' Htry) as (Hexc & Hlog & _). split; assumption.
Qed.

Lemma while_ending : forall fuel st,
  running (self st) = true ->
  match while_running fuel st with
  | None => True
  | Some (Left st') =>
      running (self st') = true /\
      exists r,
        logger (self st') = logger (self st) ++ [r] /\
        exception (self st') = slot_after r (exception (self st)) /\
        (r = LogDebug "Decoding queue depleted" \/
         exists e, r = LogException e /\ exc_class e <> BaseException_cls)
  | Some (Uncaught e st') =>
      exc_class e = BaseException_cls /\
      logger (self st') = logger (self st) /\
      exception (self st') = exception (self st) /\
      running (self st') = true /\
      waited (decoder (self st')) = waited (decoder (self st))
  end.
Proof.
  induction fuel as [| fuel IH]; intros st Hrun; [exact I |].
  cbn [while_running]. rewrite Hrun.
  pose proof (pass_effect st) as Heff. cbv zeta in Heff.
  destruct (loop_body st) as [st1 | st1 | e st1] eqn:Hbody;
    cbn [flow_state] in Heff; destruct Heff as (Hflag & Hwait & _).
  - destruct (pass_next st st1 Hbody) as (_ & Hexc & Hlog).
    specialize (IH st1 ltac:(congruence)).
    destruct (while_running fuel st1) as [[st' | e st'] |]; [| | exact I].
    + rewrite Hexc, Hlog in IH. exact IH.
    + rewrite Hexc, Hlog, Hwait in IH. exact IH.
  - split; [congruence | exact (pass_break st st1 Hbody)].
  - destruct (pass_throw st e st1 Hbody) as (Hcls & Hlog & Hexc).
    repeat split; congruence.
Qed.

(** X5: what can become of a call of [run], and how the log and the
    last-error slot tell.  The loop ends with exactly one log record, the
    depletion note or one logged exception, and the slot holds that
    exception when it is an [Exception] other than a [ValueError] and is
    left as it was in every other case.  Then either the wait for the
    process returns and [run] with it, the exit line added, the flag
    cleared; or the unread output does not fit the pipe and the call stays
    in the wait, the flag still set.  Or else an exception no handler
    catches leaves [run]: nothing was logged or stored, the flag is still
    set and the process has not been waited for. *)
Theorem run_endings : forall d,
  exists out,
    run d = Some out /\
    match out with
    | Returned d' =>
        (exists r,
           logger d' = logger d ++ [r; LogDebug "Decoder thread exiting"] /\
           exception d' = slot_after r (exception d) /\
           (r = LogDebug "Decoding queue depleted" \/
            exists e, r = LogException e /\
                      exc_class e <> BaseException_cls)) /\
        running d' = false /\ waited (decoder d') = true /\ unread_fits d'
    | Blocked d' =>
        (exists r,
           logger d' = logger d ++ [r] /\
           exception d' = slot_after r (exception d) /\
           (r = LogDebug "Decoding queue depleted" \/
            exists e, r = LogException e /\
                      exc_class e <> BaseException_cls)) /\
        running d' = true /\ ~ unread_fits d'
    | Propagated e d' =>
        exc_class e = BaseException_cls /\
        logger d' = logger d /\
        exception d' = exception d /\
        running d' = true /\
        waited (decoder d') = waited (decoder d)
    end.
Proof.
  intros d. destruct (run_total d) as (out & Hout). exists out.
  split; [exact Hout |]. unfold run in Hout.
  pose proof (while_ending (passes d) (enter d) eq_refl) as Hend.
  destruct (while_running (passes d) (enter d)) as [[st | e st] |];
    [| | discriminate].
  - destruct Hend as (Hflag & r & Hlog & Hexc & Hkind).
    cbn [logger exception enter self set_running] in Hlog, Hexc.
    destruct (leave_cases (self st)) as [(Hfits & Hleave) | (Hover & Hleave)];
      rewrite Hleave in Hout; inversion Hout; subst; clear Hout.
    + split; [| repeat split; exact Hfits].
      exists r. unfold returned_from.
      cbn [logger exception set_running log set_decoder].
      rewrite Hlog, <- app_assoc. repeat split; assumption.
    + split; [| split; assumption].
      exists r. repeat split; assumption.
  - inversion Hout; subst; clear Hout. exact Hend.
Qed.

(** ** Geometries the constructor does not refuse *)

Lemma zero_side_pass : forall st,
  input_width (self st) = 0 \/ input_height (self st) = 0 ->
  read_fault (stdout (decoder (self st)))
             (pending (stdout (decoder (self st)))) = None ->
  exists st',
    loop_body st = Break st' /\
    decoder (self st') = decoder (self st) /\
    running (self st') = running (self st) /\
    items (processing_queue (self st')) =
      items (processing_queue (self st)) /\
    exception (self st') = exception (self st) /\
    logger (self st') =
      logger (self st) ++ [LogDebug "Decoding queue depleted"].
Proof.
  intros st Hzero Hsound.
  assert (Hsize : 3 * input_width (self st) * input_height (self st) = 0)
    by (destruct Hzero as [H | H]; rewrite H; lia).
  unfold loop_body, try_block, read. rewrite Hsize, Hsound.
  cbn [Z.ltb Z.eqb Z.compare Z.to_nat firstn skipn List.length Nat.eqb
       orb Z.opp Z.sub Z.add PY_SSIZE_T_MAX].
  eexists. split; [reflexivity |].
  destruct st as [[r ip w h q s ex [[pe rf] room wt] lg] k prev].
  repeat split.
Qed.

(** X6: with a width or a height of zero the chunk size is zero, the first
    read returns nothing, and the loop takes that for the end of the
    stream: it logs the depletion and ends with the stream unread, the
    queue and the last-error slot untouched.  [run] then returns only if
    what the process still has to deliver fits the pipe; with more than
    that unread it stays in the wait for the process, the flag still
    set. *)
Theorem zero_side_reads_nothing : forall d,
  input_width d = 0 \/ input_height d = 0 ->
  read_fault (stdout (decoder d)) (pending (stdout (decoder d))) = None ->
  exists out,
    run d = Some out /\
    pending (stdout (decoder (outcome_state out))) =
      pending (stdout (decoder d)) /\
    items (processing_queue (outcome_state out)) =
      items (processing_queue d) /\
    exception (outcome_state out) = exception d /\
    match out with
    | Returned d' =>
        unread_fits d /\
        logger d' = logger d ++ [LogDebug "Decoding queue depleted";
                                 LogDebug "Decoder thread exiting"]
    | Blocked d' =>
        ~ unread_fits d /\
        logger d' = logger d ++ [LogDebug "Decoding queue depleted"] /\
        running d' = true
    | Propagated _ _ => False
    end.
Proof.
  intros d Hzero Hsound.
  destruct (zero_side_pass (enter d) Hzero Hsound)
    as (st' & Hbody & Hdec & Hflag & Hitems & Hexc & Hlog).
  unfold run, passes. cbn [while_running enter self running set_running].
  fold (enter d). rewrite Hbody.
  cbn [enter self set_running decoder running items processing_queue
       exception logger] in Hdec, Hflag, Hitems, Hexc, Hlog.
  assert (Hsame : unread_fits (self st') <-> unread_fits d)
    by (unfold unread_fits; rewrite Hdec; reflexivity).
  destruct (leave_cases (self st')) as [(Hfits & Hleave) | (Hover & Hleave)];
    rewrite Hleave; (eexists; split; [reflexivity |]);
    cbn [outcome_state]; unfold returned_from;
    cbn [items processing_queue exception set_running log set_decoder decoder
         stdout pending logger].
  - rewrite Hdec, Hlog, <- app_assoc.
    repeat split; try assumption. apply Hsame, Hfits.
  - rewrite Hdec. repeat split; try assumption.
    intros Hfits. apply Hover, Hsame, Hfits.
Qed.

Lemma negative_side_pass : forall st,
  input_width (self st) < 0 \/ input_height (self st) < 0 ->
  - PY_SSIZE_T_MAX - 1 <= 3 * input_width (self st) * input_height (self st)
    <= PY_SSIZE_T_MAX ->
  sound_pipe (stdout (decoder (self st))) ->
  exists st',
    loop_body st = Break st' /\
    items (processing_queue (self st')) = items (processing_queue (self st)) /\
    exception (self st') = exception (self st).
Proof.
  intros st Hneg [Hlow Hhigh] Hsound.
  assert (Hdims : ((input_width (self st) <? 0)
                   || (input_height (self st) <? 0))%bool = true).
  { apply Bool.orb_true_iff. destruct Hneg; [left | right];
      apply Z.ltb_lt; assumption. }
  assert (Hsize : ((3 * input_width (self st) * input_height (self st)
                    <? - PY_SSIZE_T_MAX - 1)
                   || (PY_SSIZE_T_MAX
                       <? 3 * input_width (self st) * input_height (self st)))
                  %bool = false).
  { apply Bool.orb_false_iff. split; apply Z.ltb_ge; lia. }
  unfold loop_body, try_block.
  destruct (read _ (stdout (decoder (self st)))) as [[buffer out] | e0]
    eqn:Hread.
  - destruct (Nat.eqb (List.length buffer) 0).
    + eexists. split; [reflexivity |]. split; reflexivity.
    + unfold Image_frombytes. rewrite Hdims. cbn [ValueError exc_class].
      eexists. split; [reflexivity |]. split; reflexivity.
  - unfold read in Hread. rewrite Hsize, Hsound in Hread.
    destruct (_ <? -1); [| destruct (_ =? -1); discriminate].
    inversion Hread; subst. cbn [ValueError exc_class].
    eexists. split; [reflexivity |]. split; reflexivity.
Qed.

(** X7: with a negative width or height, a chunk size within the
    interpreter's index range and a sound pipe, the loop makes one pass and
    ends: the read is refused or the image cannot be built, both a
    ValueError, or the stream is empty; so nothing is published, the
    last-error slot is left as it was, and no exception leaves [run]. *)
Theorem negative_side_publishes_nothing : forall d,
  input_width d < 0 \/ input_height d < 0 ->
  - PY_SSIZE_T_MAX - 1 <= 3 * input_width d * input_height d
    <= PY_SSIZE_T_MAX ->
  sound_pipe (stdout (decoder d)) ->
  exists out,
    run d = Some out /\
    match out with Propagated _ _ => False | _ => True end /\
    items (processing_queue (outcome_state out)) =
      items (processing_queue d) /\
    exception (outcome_state out) = exception d.
Proof.
  intros d Hneg Hsize Hsound.
  destruct (negative_side_pass (enter d) Hneg Hsize Hsound)
    as (st' & Hbody & Hitems & Hexc).
  unfold run, passes. cbn [while_running enter self running set_running].
  fold (enter d). rewrite Hbody.
  destruct (leave_cases (self st')) as [(_ & Hleave) | (_ & Hleave)];
    rewrite Hleave; (eexists; split; [reflexivity |]);
    (split; [exact I |]); cbn [outcome_state]; unfold returned_from;
    cbn [items processing_queue exception set_running log set_decoder];
    split; assumption.
Qed.

(** ** What [run] leaves alone *)

Lemma read_split : forall size p buffer out,
  read size p = Ok (buffer, out) -> pending p = buffer ++ pending out.
Proof.
  intros size p buffer out. unfold read.
  destruct (_ || _)%bool; [discriminate |].
  destruct (size <? -1); [discriminate |].
  destruct (read_fault p (pending p)); [discriminate |].
  destruct (size =? -1); intros H; inversion H; subst; cbn [pending].
  - rewrite app_nil_r. reflexivity.
  - symmetry. apply firstn_skipn.
Qed.

Lemma pass_keeps : forall st,
  let st' := flow_state (loop_body st) in
  input_path (self st') = input_path (self st) /\
  input_width (self st') = input_width (self st) /\
  input_height (self st') = input_height (self st) /\
  processing_settings (self st') = processing_settings (self st) /\
  exists taken,
    pending (stdout (decoder (self st))) =
      taken ++ pending (stdout (decoder (self st'))).
Proof.
  intros st. cbv zeta.
  pass_cases st;
    try (pose proof (read_split _ _ _ _ Hread) as Hsplit);
    try destruct (exc_class _);
    cbn [flow_state on_self self set_decoder set_exception log
         set_processing_queue input_path input_width input_height
         processing_settings decoder stdout];
    repeat split;
    first [ exists buffer; exact Hsplit | exists []; reflexivity ].
Qed.

Lemma while_keeps : forall fuel st,
  match while_running fuel st with
  | None => True
  | Some ending =>
      let st' := match ending with Left x => x | Uncaught _ x => x end in
      input_path (self st') = input_path (self st) /\
      input_width (self st') = input_width (self st) /\
      input_height (self st') = input_height (self st) /\
      processing_settings (self st') = processing_settings (self st) /\
      exists taken,
        pending (stdout (decoder (self st))) =
          taken ++ pending (stdout (decoder (self st')))
  end.
Proof.
  induction fuel as [| fuel IH]; intros st; [exact I |].
  cbn [while_running].
  destruct (running (self st)).
  - pose proof (pass_keeps st) as Hpass. cbv zeta in Hpass.
    destruct (loop_body st) as [st1 | st1 | e st1];
      cbn [flow_state] in Hpass; [| exact Hpass | exact Hpass].
    specialize (IH st1).
    destruct (while_running fuel st1) as [ending |]; [| exact I].
    cbv zeta in *.
    destruct Hpass as (Hp & Hw & Hh & Hs & taken1 & Ht1).
    destruct IH as (Hp' & Hw' & Hh' & Hs' & taken2 & Ht2).
    repeat split; try congruence.
    exists (taken1 ++ taken2). rewrite Ht1, Ht2, app_assoc. reflexivity.
  - cbv zeta. repeat split. exists []. reflexivity.
Qed.

(** X9: however a run ends, it has not touched the path, the geometry or
    the settings of the decoder, and it has only taken bytes from the front
    of the stream: what the process had delivered is what [run] took
    followed by what is still in the pipe. *)
Theorem run_only_takes_from_the_front : forall d,
  exists out,
    run d = Some out /\
    input_path (outcome_state out) = input_path d /\
    input_width (outcome_state out) = input_width d /\
    input_height (outcome_state out) = input_height d /\
    processing_settings (outcome_state out) = processing_settings d /\
    exists taken,
      pending (stdout (decoder d)) =
        taken ++ pending (stdout (decoder (outcome_state out))).
Proof.
  intros d. destruct (run_total d) as (out & Hout). exists out.
  split; [exact Hout |]. unfold run in Hout.
  pose proof (while_keeps (passes d) (enter d)) as Hkeep.
  destruct (while_running (passes d) (enter d)) as [[st | e st] |];
    [| | discriminate]; cbv zeta in Hkeep;
    cbn [enter self set_running input_path input_width input_height
         processing_settings decoder stdout] in Hkeep.
  - destruct (leave_cases (self st)) as [(_ & Hleave) | (_ & Hleave)];
      rewrite Hleave in Hout; inversion Hout; subst; clear Hout;
      cbn [outcome_state]; unfold returned_from;
      cbn [set_running log set_decoder input_path input_width input_height
           processing_settings decoder stdout];
      exact Hkeep.
  - inversion Hout; subst; clear Hout. exact Hkeep.
Qed.

(** ** [stop] at the edges *)

Lemma move_done_flag : forall ev t,
  (pc t = PcDone -> running (self (frame t)) = false) ->
  pc (move ev t) = PcDone -> running (self (frame (move ev t))) = false.
Proof.
  intros [|] [p st] Hinv; cbn [move pc frame] in *.
  - unfold thread_step. cbn [pc frame].
    destruct p; cbn [pc frame]; try discriminate.
    + destruct (running (self st)); discriminate.
    + destruct (loop_body st); discriminate.
    + destruct (reap (self st)); discriminate.
    + reflexivity.
    + exact Hinv.
  - unfold owner_stop. cbn [pc frame]. reflexivity.
Qed.

Lemma exec_done_flag : forall sched t,
  (pc t = PcDone -> running (self (frame t)) = false) ->
  pc (exec sched t) = PcDone -> running (self (frame (exec sched t))) = false.
Proof.
  induction sched as [| ev rest IH]; intros t Hinv; [exact Hinv |].
  cbn [exec]. apply IH. apply move_done_flag, Hinv.
Qed.

(** X10: once [run] has returned the flag is down, and a [stop] then, or
    whatever else the schedule still holds, changes nothing of the thread
    or the object. *)
Theorem stop_after_return_changes_nothing : forall d sched,
  pc (exec sched (spawn d)) = PcDone ->
  running (self (frame (exec sched (spawn d)))) = false /\
  owner_stop (exec sched (spawn d)) = exec sched (spawn d) /\
  forall later, exec (sched ++ later) (spawn d) = exec sched (spawn d).
Proof.
  intros d sched Hdone.
  assert (Hflag : running (self (frame (exec sched (spawn d)))) = false).
  { apply exec_done_flag; [discriminate | exact Hdone]. }
  assert (Hstop : owner_stop (exec sched (spawn d)) = exec sched (spawn d)).
  { destruct (exec sched (spawn d)) as [p [[r ip w h q s ex dec lg] k prev]].
    cbn [pc frame self running] in *. subst r. reflexivity. }
  split; [exact Hflag |]. split; [exact Hstop |].
  intros later. rewrite exec_app.
  induction later as [| ev rest IH]; [reflexivity |].
  cbn [exec]. destruct ev; cbn [move].
  - unfold thread_step. rewrite Hdone.
    destruct (exec sched (spawn d)); exact IH.
  - rewrite Hstop. exact IH.
Qed.

Lemma stopped_step_descends : forall t,
  running (self (frame t)) = false -> pc t <> PcEntry -> ~ settled t ->
  (steps_after_stop (pc (thread_step t)) < steps_after_stop (pc t))%nat.
Proof.
  intros [p st] Hflag Hentry Hlive. cbn [pc frame] in *.
  unfold thread_step. cbn [pc frame].
  destruct p; cbn [pc frame steps_after_stop]; try congruence.
  - rewrite Hflag. cbn [pc steps_after_stop]. lia.
  - destruct (loop_body st); cbn [pc steps_after_stop]; lia.
  - destruct (reap_cases (self st)) as [(_ & Hreap) | (Hover & Hreap)];
      rewrite Hreap; cbn [pc steps_after_stop]; [lia |].
    exfalso. apply Hlive. right. split; [reflexivity | exact Hover].
  - lia.
  - exfalso. apply Hlive. left. left. reflexivity.
  - exfalso. apply Hlive. left. right. eexists. reflexivity.
Qed.

Lemma exec_after_stop_settles : forall sched t,
  running (self (frame t)) = false -> pc t <> PcEntry ->
  (steps_after_stop (pc t) <= ticks sched)%nat ->
  settled (exec sched t).
Proof.
  induction sched as [| ev rest IH]; intros t Hflag Hentry Hsteps.
  - cbn [ticks exec] in *. destruct t as [p st]. unfold settled, halted.
    cbn [pc] in *.
    destruct p; cbn [steps_after_stop] in Hsteps; try lia; try congruence.
    + left. left. reflexivity.
    + left. right. eexists. reflexivity.
  - destruct (settled_dec t) as [Ht | Hlive].
    + apply (settled_exec (ev :: rest)), Ht.
    + destruct (move_after_stop ev t Hflag Hentry) as (Hflag' & Hentry' & _).
      cbn [exec]. apply IH; [exact Hflag' | exact Hentry' |].
      destruct ev; cbn [move ticks] in *.
      * pose proof (stopped_step_descends t Hflag Hentry Hlive). lia.
      * destruct t as [p st]. cbn [owner_stop pc] in *. exact Hsteps.
Qed.

(** X11: a [stop] during the loop takes the thread out of the loop within
    the pass in flight, however long the stream still is: four steps of the
    thread after the call, [run] has returned with the process waited for
    and the flag cleared, or the thread is in the wait for the process and
    will stay there, because more output is unread than the pipe has room
    for ([stop] neither ends nor drains the process), or an exception no
    handler catches has left [run]. *)
Theorem stop_takes_effect_within_a_pass : forall t sched,
  pc t = PcWhile \/ pc t = PcBody ->
  (4 <= ticks sched)%nat ->
  (pc (exec sched (owner_stop t)) = PcDone /\
   waited (decoder (self (frame (exec sched (owner_stop t))))) = true /\
   running (self (frame (exec sched (owner_stop t)))) = false) \/
  (stuck (exec sched (owner_stop t)) /\
   forall later,
     stuck (exec (sched ++ later) (owner_stop t))) \/
  (exists e, pc (exec sched (owner_stop t)) = PcRaised e /\
             exc_class e = BaseException_cls).
Proof.
  intros t sched Hloop Hticks.
  assert (Hentry : pc (owner_stop t) <> PcEntry).
  { destruct t as [p st]. cbn [owner_stop pc].
    destruct Hloop; cbn [pc] in *; subst; discriminate. }
  assert (Hwell : leaving_well (exec sched (owner_stop t))).
  { apply exec_leaving_well. destruct t as [p st].
    unfold leaving_well. cbn [owner_stop pc frame].
    destruct Hloop; cbn [pc] in *; subst; exact I. }
  destruct (exec_after_stop_settles sched (owner_stop t) eq_refl Hentry)
    as [[Hdone | (e & Hraised)] | Hstuck].
  { destruct t as [p st]. cbn [owner_stop pc].
    destruct Hloop; cbn [pc] in *; subst; cbn [steps_after_stop]; lia. }
  - left. split; [exact Hdone |]. unfold leaving_well in Hwell.
    rewrite Hdone in Hwell. split; [exact Hwell |].
    apply exec_done_flag; [| exact Hdone].
    destruct t as [p st]. cbn [owner_stop pc].
    destruct Hloop; cbn [pc] in *; subst; discriminate.
  - right. right. exists e. split; [exact Hraised |].
    unfold leaving_well in Hwell. rewrite Hraised in Hwell. exact Hwell.
  - right. left. split; [exact Hstuck |].
    intros later. rewrite exec_app.
    induction later as [| ev rest IH] using rev_ind; [exact Hstuck |].
    rewrite exec_app. cbn [exec]. apply stuck_move, IH.
Qed.

(** ** A queue that refuses an item *)

Lemma pass_first_frame : forall st chunk rest,
  0 < input_width (self st) -> 0 < input_height (self st) ->
  chunk_fits (self st) ->
  sound_pipe (stdout (decoder (self st))) ->
  previous_image st = None ->
  pending (stdout (decoder (self st))) = chunk ++ rest ->
  Z.of_nat (List.length chunk) =
    3 * input_width (self st) * input_height (self st) ->
  loop_body st =
  Next (progressed [] rest (frame_index st + 1)
          (Some (image_of (input_width (self st)) (input_height (self st))
                          chunk))
          st).
Proof.
  intros [[r ip w h [it pf] s ex [[pe rf] room wt] lg] k prev] chunk rest
         Hw Hh Hfit Hpipe Hprev Hpend Hlen.
  cbn [self decoder stdout input_width input_height pending frame_index
       previous_image] in *.
  subst prev.
  pose proof (conj (chunk_size_pos w h Hw Hh) Hfit
              : 0 < 3 * w * h <= PY_SSIZE_T_MAX) as Hpos.
  unfold loop_body, try_block.
  cbn [self decoder stdout input_width input_height].
  rewrite (read_chunk (3 * w * h) (mkPipe pe rf) chunk rest Hpos Hpipe Hpend Hlen).
  destruct (Nat.eqb_spec (List.length chunk) 0) as [Hz | _]; [lia |].
  rewrite (frombytes_full w h chunk Hw Hh Hlen).
  unfold progressed. cbn -[Z.add]. rewrite app_nil_r. reflexivity.
Qed.

Lemma pass_put_refused : forall st previous chunk rest e,
  0 < input_width (self st) -> 0 < input_height (self st) ->
  chunk_fits (self st) ->
  sound_pipe (stdout (decoder (self st))) ->
  previous_image st = Some previous ->
  pending (stdout (decoder (self st))) = chunk ++ rest ->
  Z.of_nat (List.length chunk) =
    3 * input_width (self st) * input_height (self st) ->
  put_fault (processing_queue (self st))
            (items (processing_queue (self st))) = Some e ->
  exc_class e = Exception_cls ->
  loop_body st =
  Break (on_self (log (LogException e))
           (on_self (set_exception (Some e))
              (progressed [] rest (frame_index st) (Some previous) st))).
Proof.
  intros [[r ip w h [it pf] s ex [[pe rf] room wt] lg] k prev] previous chunk
         rest e Hw Hh Hfit Hpipe Hprev Hpend Hlen Hput Hcls.
  cbn [self decoder stdout input_width input_height pending frame_index
       previous_image processing_queue items put_fault] in *.
  subst prev.
  pose proof (conj (chunk_size_pos w h Hw Hh) Hfit
              : 0 < 3 * w * h <= PY_SSIZE_T_MAX) as Hpos.
  unfold loop_body, try_block.
  cbn [self decoder stdout input_width input_height].
  rewrite (read_chunk (3 * w * h) (mkPipe pe rf) chunk rest Hpos Hpipe Hpend Hlen).
  destruct (Nat.eqb_spec (List.length chunk) 0) as [Hz | _]; [lia |].
  rewrite (frombytes_full w h chunk Hw Hh Hlen).
  unfold put.
  cbn [on_self previous_image self processing_queue put_fault items
       set_decoder].
  rewrite Hput, Hcls.
  unfold progressed. cbn. rewrite app_nil_r. reflexivity.
Qed.

(** X12: when the queue refuses the first item with an [Exception], the
    loop ends there: both frames of the pair have been taken from the
    stream, the rest of the stream is left unread, the queue holds what it
    held, and the exception is in the log and in the last-error slot.
    [run] returns from there when the unread rest fits the pipe, and stays
    in the wait for the process when it does not. *)
Theorem refused_put_ends_the_run : forall d first second rest e,
  0 < input_width d -> 0 < input_height d -> chunk_fits d ->
  sound_pipe (stdout (decoder d)) ->
  pending (stdout (decoder d)) = first ++ second ++ rest ->
  Z.of_nat (List.length first) = 3 * input_width d * input_height d ->
  Z.of_nat (List.length second) = 3 * input_width d * input_height d ->
  put_fault (processing_queue d) (items (processing_queue d)) = Some e ->
  exc_class e = Exception_cls ->
  exists out,
    run d = Some out /\
    items (processing_queue (outcome_state out)) =
      items (processing_queue d) /\
    pending (stdout (decoder (outcome_state out))) = rest /\
    exception (outcome_state out) = Some e /\
    match out with
    | Returned d' =>
        (N.of_nat (List.length rest) <= pipe_room (decoder d))%N /\
        logger d' = logger d ++ [LogException e;
                                 LogDebug "Decoder thread exiting"] /\
        waited (decoder d') = true
    | Blocked d' =>
        (pipe_room (decoder d) < N.of_nat (List.length rest))%N /\
        logger d' = logger d ++ [LogException e] /\
        running d' = true
    | Propagated _ _ => False
    end.
Proof.
  intros d first second rest e Hw Hh Hfit Hpipe Hpend Hfirst Hsecond Hput
         Hcls.
  unfold run, passes. rewrite Hpend, !length_app.
  replace (S (List.length first + (List.length second + List.length rest)))
    with (S (S (List.length first + List.length second + List.length rest
                - 1)))%nat
    by (pose proof (chunk_size_pos _ _ Hw Hh); lia).
  cbn [while_running enter self running set_running]. fold (enter d).
  rewrite (pass_first_frame (enter d) first (second ++ rest));
    try assumption; try reflexivity.
  cbn [progressed self running enter set_running].
  match goal with
  | |- context [loop_body ?st] =>
      rewrite (pass_put_refused st
                 (image_of (input_width d) (input_height d) first)
                 second rest e)
  end; try assumption; try reflexivity.
  - match goal with
    | |- context [leave ?x] =>
        destruct (leave_cases x) as [(Hfits & Hleave) | (Hover & Hleave)];
          rewrite Hleave
    end;
      (eexists; split; [reflexivity |]);
      unfold unread_fits, returned_from, progressed in *;
      cbn in Hfits || cbn in Hover; cbn; rewrite ?app_nil_r.
    + repeat split; [exact Hfits |]. rewrite <- app_assoc. reflexivity.
    + repeat split. apply N.lt_nge. exact Hover.
  - cbn. rewrite app_nil_r. exact Hput.
Qed.

(** ** A chunk size the interpreter cannot index *)

Lemma oversized_pass : forall st,
  PY_SSIZE_T_MAX < 3 * input_width (self st) * input_height (self st) \/
  3 * input_width (self st) * input_height (self st) < - PY_SSIZE_T_MAX - 1 ->
  loop_body st =
  Break (on_self (log (LogException overflow_error))
                 (on_self (set_exception (Some overflow_error)) st)).
Proof.
  intros st Hsize. unfold loop_body, try_block, read.
  replace ((3 * input_width (self st) * input_height (self st)
            <? - PY_SSIZE_T_MAX - 1)
           || (PY_SSIZE_T_MAX
               <? 3 * input_width (self st) * input_height (self st)))%bool
    with true.
  - reflexivity.
  - symmetry. apply Bool.orb_true_iff.
    destruct Hsize as [Hhigh | Hlow]; [right | left]; apply Z.ltb_lt;
      assumption.
Qed.

(** X13: when width*height*3 is outside the interpreter's index range, the
    first read raises [OverflowError] whatever the stream holds: nothing is
    read or published, the error is logged and stored in the last-error
    slot, and no exception leaves [run]. *)
Theorem oversized_chunk_is_stored : forall d,
  PY_SSIZE_T_MAX < 3 * input_width d * input_height d \/
  3 * input_width d * input_height d < - PY_SSIZE_T_MAX - 1 ->
  exists out,
    run d = Some out /\
    match out with Propagated _ _ => False | _ => True end /\
    exception (outcome_state out) = Some overflow_error /\
    In (LogException overflow_error) (logger (outcome_state out)) /\
    items (processing_queue (outcome_state out)) =
      items (processing_queue d) /\
    pending (stdout (decoder (outcome_state out))) =
      pending (stdout (decoder d)).
Proof.
  intros d Hsize.
  unfold run, passes. cbn [while_running enter self running set_running].
  fold (enter d). rewrite (oversized_pass (enter d) Hsize).
  match goal with
  | |- context [leave ?x] =>
      destruct (leave_cases x) as [(_ & Hleave) | (_ & Hleave)];
        rewrite Hleave
  end;
    (eexists; split; [reflexivity |]); (split; [exact I |]);
    cbn [outcome_state]; unfold returned_from;
    cbn [exception logger items processing_queue pending stdout decoder
         set_running log set_decoder set_exception on_self self enter];
    repeat split;
    repeat (apply in_or_app; first [right; left; reflexivity | left]).
Qed.

End Decoder.

Arguments fresh_decoder {Settings}.
Arguments decoder_on_bad_pipe {Settings}.
Arguments decoder_on_full_queue {Settings}.
Arguments decoder_on_small_pipe {Settings}.
Arguments outcome_state {Settings}.
Arguments unread_fits {Settings}.
Arguments Blocked {Settings}.
Arguments Propagated {Settings}.
Arguments stuck {Settings}.
Arguments construct {Settings FrameRate}.
Arguments construct_and_start {Settings FrameRate}.
Arguments mkWorld {Settings}.
Arguments started {Settings}.
Arguments shared_queue {Settings}.
Arguments run {Settings}.
Arguments enter {Settings}.
Arguments try_block {Settings}.
Arguments loop_body {Settings}.
Arguments nth_pass {Settings}.
Arguments spawn {Settings}.
Arguments exec {Settings}.
Arguments thread_step {Settings}.
Arguments owner_stop {Settings}.
Arguments published {Settings}.
Arguments init {Settings FrameRate}.
Arguments decode_command {FrameRate}.
Arguments cmd_global_args {FrameRate}.
Arguments Returned {Settings}.
Arguments Throw {Settings}.
Arguments Next {Settings}.
Arguments mkThread {Settings}.
Arguments mkQueue {Settings}.
Arguments pc {Settings}.
Arguments frame {Settings}.
Arguments self {Settings}.
Arguments previous_image {Settings}.
Arguments running {Settings}.
Arguments exception {Settings}.
Arguments logger {Settings}.
Arguments decoder {Settings}.
Arguments processing_queue {Settings}.
Arguments items {Settings}.

(** * The statements at work *)

(** Three one-pixel frames give two items, indexed 1 and 2. *)
Lemma run_publishes_frame_pairs_sample :
  exists d' new,
    run (fresh_decoder 1 1 (List.concat three_frames) tt) = Some (Returned d') /\
    items (processing_queue d') = [] ++ new /\
    Z.of_nat (List.length new) = 2 /\
    map (fun item : WorkItem unit => fst (fst item)) new = [1; 2].
Proof.
  destruct (run_publishes_frame_pairs unit
              (fresh_decoder 1 1 (List.concat three_frames) tt) three_frames)
    as (d' & new & Hrun & Hitems & Hlen & Hidx & _).
  - reflexivity.
  - reflexivity.
  - vm_compute. discriminate.
  - intros bytes. reflexivity.
  - intros content. reflexivity.
  - repeat constructor.
  - reflexivity.
  - exists d', new. repeat split; assumption.
Defined.

(** A full frame and a stray byte: the conversion of the stray byte fails,
    the failure is in the log, and the last-error slot stays empty. *)
Lemma partial_frame_leaves_slot_empty :
  exists d',
    run (fresh_decoder 1 1 ([x00; x01; x02] ++ stray_byte) tt) =
      Some (Returned d') /\
    exception d' = None /\
    logger d' = [LogException (ValueError "not enough image data");
                 LogDebug "Decoder thread exiting"] /\
    items (processing_queue d') = [].
Proof.
  eexists. split; [reflexivity |]. repeat split.
Qed.

Lemma run_partial_frame_logged_only_sample :
  exists d',
    run (fresh_decoder 1 1 (List.concat three_frames ++ stray_byte) tt) =
      Some (Returned d') /\
    exception d' = None /\
    List.length (items (processing_queue d')) = 2%nat.
Proof.
  destruct (run_partial_frame_logged_only unit
              (fresh_decoder 1 1 (List.concat three_frames ++ stray_byte) tt)
              three_frames stray_byte)
    as (d' & Hrun & _ & Hexc & _ & Hitems).
  - reflexivity.
  - reflexivity.
  - vm_compute. discriminate.
  - intros bytes. reflexivity.
  - intros content. reflexivity.
  - repeat constructor.
  - reflexivity.
  - split; reflexivity.
  - exists d'. split; [exact Hrun |]. split; [exact Hexc |].
    rewrite Hitems. reflexivity.
Defined.

Lemma loglevel_taken_from_table_sample :
  loglevel_arg [("LOGURU_LEVEL", "CRITICAL")] = Some "fatal".
Proof.
  destruct (loglevel_taken_from_table unit
              [("LOGURU_LEVEL", "CRITICAL")] "input.mp4" tt)
    as (_ & _ & Htable & _).
  apply (Htable "critical" "fatal").
  - right. right. right. right. right. right. left. reflexivity.
  - reflexivity.
Defined.

(** A stream of one stray byte: the conversion fails in the first pass, and
    after [run] the last-error slot is still empty. *)
Lemma conversion_failure_not_in_slot :
  nth_pass 0 (enter (fresh_decoder 1 1 stray_byte tt)) =
    Some (enter (fresh_decoder 1 1 stray_byte tt)) /\
  (exists st',
     try_block (enter (fresh_decoder 1 1 stray_byte tt)) =
       Throw (ValueError "not enough image data") st') /\
  exists d',
    run (fresh_decoder 1 1 stray_byte tt) = Some (Returned d') /\
    exception d' = None.
Proof.
  split; [reflexivity |]. split.
  - eexists. reflexivity.
  - eexists. split; reflexivity.
Qed.

(** A pipe whose every read fails: the error is logged and stored, and
    nothing leaves [run]. *)
Lemma run_records_loop_failures_sample :
  exists out,
    run (decoder_on_bad_pipe 1 1 tt) = Some out /\
    match out with
    | Returned _ => unread_fits (decoder_on_bad_pipe 1 1 tt)
    | Blocked _ => ~ unread_fits (decoder_on_bad_pipe 1 1 tt)
    | Propagated _ _ => False
    end /\
    In (LogException read_failure) (logger (outcome_state out)) /\
    exception (outcome_state out) = Some read_failure.
Proof.
  apply (run_records_loop_failures unit (decoder_on_bad_pipe 1 1 tt) 0
           (enter (decoder_on_bad_pipe 1 1 tt)) read_failure
           (enter (decoder_on_bad_pipe 1 1 tt))).
  - reflexivity.
  - reflexivity.
  - discriminate.
Defined.

Lemma run_depleted_without_error_sample :
  exists d',
    run (fresh_decoder 1 1 (List.concat three_frames) tt) = Some (Returned d') /\
    exception d' = None /\
    logger d' = [LogDebug "Decoding queue depleted";
                 LogDebug "Decoder thread exiting"] /\
    pending (stdout (decoder d')) = [] /\
    running d' = false.
Proof.
  apply (run_depleted_without_error unit
           (fresh_decoder 1 1 (List.concat three_frames) tt)).
  - reflexivity.
  - reflexivity.
  - vm_compute. discriminate.
  - intros bytes. reflexivity.
  - intros content. reflexivity.
  - reflexivity.
Defined.

(** The owner stops the thread while its second pass is in flight: that pass
    still publishes its item, and nothing follows it. *)
Lemma stop_ends_after_pass_in_flight_sample :
  exists extra,
    published
      (exec [Tick; Tick; Tick; Tick; Tick]
         (owner_stop
            (exec [Tick; Tick; Tick; Tick]
               (spawn (fresh_decoder 1 1 (List.concat three_frames) tt))))) =
    [] ++ extra /\
    (List.length extra <= 1)%nat.
Proof.
  destruct (stop_ends_after_pass_in_flight unit
              (exec [Tick; Tick; Tick; Tick]
                 (spawn (fresh_decoder 1 1 (List.concat three_frames) tt)))
              [Tick; Tick; Tick; Tick; Tick])
    as (_ & _ & _ & _ & _ & extra & Hpub & _ & Hlen).
  - right. reflexivity.
  - exists extra. split; [exact Hpub | exact Hlen].
Defined.

(** A stop in the first pass of a short stream: what is left unread fits
    the pipe, the wait returns, and so does [run]. *)
Lemma process_waited_on_every_exit_sample :
  waited
    (decoder
       (self
          (frame
             (exec [Tick; Tick; StopCall; Tick; Tick; Tick; Tick]
                (spawn (fresh_decoder 1 1 (List.concat three_frames) tt))))))
  = true.
Proof.
  destruct (process_waited_on_every_exit unit
              (fresh_decoder 1 1 (List.concat three_frames) tt))
    as (_ & Hdone & _).
  apply Hdone. reflexivity.
Defined.

(** The same stop on a pipe with room for four bytes: six are left unread,
    and the thread stays in the wait whatever the schedule gives it. *)
Lemma stop_on_small_pipe_waits_for_good :
  pc (exec [Tick; Tick; StopCall; Tick; Tick; Tick; Tick; Tick; Tick]
        (spawn (decoder_on_small_pipe 1 1 (List.concat three_frames) tt))) =
    PcWait /\
  run (decoder_on_small_pipe 0 1 (List.concat three_frames) tt) =
    Some (Blocked
            (mkDecoder unit true "input.mp4" 0 1 (mkQueue [] (fun _ => None))
               tt None
               (mkPopen (mkPipe (List.concat three_frames) (fun _ => None))
                        4 false)
               [LogDebug "Decoding queue depleted"])).
Proof.
  split; reflexivity.
Qed.

(** The binary is not there: the caller gets the launch error, no thread
    is started and the queue is as it was. *)
Lemma launch_error_leaves_constructor_sample :
  exists world',
    construct_and_start [] (fun _ => Raise launch_failure) "input.mp4" 1 1 tt
      tt true (mkWorld (mkQueue [] (fun _ => None)) [] (Some 89478485)) =
    (Raise launch_failure, world') /\
    started world' = [] /\
    shared_queue world' = mkQueue [] (fun _ => None).
Proof.
  destruct (launch_error_leaves_constructor unit unit []
              (fun _ => Raise launch_failure) "input.mp4" 1 1 tt tt true
              (mkWorld (mkQueue [] (fun _ => None)) [] (Some 89478485))
              launch_failure)
    as (world' & Hcall & Hthreads & Hqueue & _).
  - reflexivity.
  - exists world'. repeat split; assumption.
Defined.

Lemma frame_bytes_round_trip_sample :
  exists image,
    Image_frombytes 1 1 [x00; x01; x02] = Ok image /\
    Image_tobytes image = [x00; x01; x02] /\
    im_size image = (1, 1).
Proof.
  apply (frame_bytes_round_trip unit 1 1 [x00; x01; x02]); reflexivity.
Defined.

Lemma stop_before_run_is_lost_sample :
  exec [StopCall; Tick; Tick; Tick]
       (spawn (fresh_decoder 1 1 (List.concat three_frames) tt)) =
  exec [Tick; Tick; Tick]
       (spawn (fresh_decoder 1 1 (List.concat three_frames) tt)).
Proof.
  apply (stop_before_run_is_lost unit
           (fresh_decoder 1 1 (List.concat three_frames) tt) [Tick; Tick]).
Defined.

(** * The further properties at work *)

Lemma run_counts_full_frames_sample :
  exists d' new,
    run (fresh_decoder 1 1 (List.concat three_frames ++ stray_byte) tt) =
      Some (Returned d') /\
    items (processing_queue d') = [] ++ new /\
    Z.of_nat (List.length new) = 2 /\
    exception d' = None.
Proof.
  destruct (run_counts_full_frames unit
              (fresh_decoder 1 1 (List.concat three_frames ++ stray_byte) tt))
    as (d' & new & Hrun & Hitems & Hlen & _ & Hexc & _).
  - reflexivity.
  - reflexivity.
  - vm_compute. discriminate.
  - intros bytes. reflexivity.
  - intros content. reflexivity.
  - exists d', new. repeat split; assumption.
Defined.

(** A zero width on a pipe with room for four bytes and nine to come: the
    loop ends at once and [run] stays in the wait. *)
Lemma zero_side_reads_nothing_sample :
  exists out,
    run (decoder_on_small_pipe 0 5 (List.concat three_frames) tt) = Some out /\
    pending (stdout (decoder (outcome_state out))) =
      List.concat three_frames /\
    items (processing_queue (outcome_state out)) = [] /\
    exception (outcome_state out) = None /\
    match out with
    | Returned d' =>
        unread_fits
          (decoder_on_small_pipe 0 5 (List.concat three_frames) tt) /\
        logger d' = [] ++ [LogDebug "Decoding queue depleted";
                           LogDebug "Decoder thread exiting"]
    | Blocked d' =>
        ~ unread_fits
            (decoder_on_small_pipe 0 5 (List.concat three_frames) tt) /\
        logger d' = [] ++ [LogDebug "Decoding queue depleted"] /\
        running d' = true
    | Propagated _ _ => False
    end.
Proof.
  apply (zero_side_reads_nothing unit
           (decoder_on_small_pipe 0 5 (List.concat three_frames) tt)).
  - left. reflexivity.
  - reflexivity.
Defined.

Lemma negative_side_publishes_nothing_sample :
  exists out,
    run (fresh_decoder (-1) 1 (List.concat three_frames) tt) = Some out /\
    match out with Propagated _ _ => False | _ => True end /\
    items (processing_queue (outcome_state out)) = [] /\
    exception (outcome_state out) = None.
Proof.
  apply (negative_side_publishes_nothing unit
           (fresh_decoder (-1) 1 (List.concat three_frames) tt)).
  - left. reflexivity.
  - split; vm_compute; discriminate.
  - intros bytes. reflexivity.
Defined.

Lemma init_then_run_sample :
  exists d d',
    init []
         (fun _ => Ok (mkPipe (List.concat three_frames) (fun _ => None),
                       65536%N))
         "input.mp4" 1 1 tt (mkQueue [] (fun _ => None)) tt = Ok d /\
    run d = Some (Returned d') /\
    List.length (items (processing_queue d')) = 2%nat /\
    exception d' = None.
Proof.
  destruct (init_then_run unit unit []
              (fun _ => Ok (mkPipe (List.concat three_frames) (fun _ => None),
                            65536%N))
              "input.mp4" 1 1 tt (mkQueue [] (fun _ => None)) tt "info"
              (mkPipe (List.concat three_frames) (fun _ => None)) 65536%N
              three_frames)
    as (d & d' & Hinit & Hrun & Hitems & Hexc & _).
  - reflexivity.
  - reflexivity.
  - reflexivity.
  - reflexivity.
  - vm_compute. discriminate.
  - intros bytes. reflexivity.
  - intros content. reflexivity.
  - repeat constructor.
  - reflexivity.
  - exists d, d'. split; [exact Hinit |]. split; [exact Hrun |].
    split; [rewrite Hitems; reflexivity | exact Hexc].
Defined.

Lemma stop_after_return_changes_nothing_sample :
  owner_stop
    (exec [Tick; Tick; Tick; Tick; Tick] (spawn (fresh_decoder 1 1 [] tt))) =
  exec [Tick; Tick; Tick; Tick; Tick] (spawn (fresh_decoder 1 1 [] tt)).
Proof.
  destruct (stop_after_return_changes_nothing unit
              (fresh_decoder 1 1 [] tt) [Tick; Tick; Tick; Tick; Tick])
    as (_ & Hstop & _).
  - reflexivity.
  - exact Hstop.
Defined.

(** A stop in the first pass on a pipe with room for four bytes: the pass
    takes three of the nine bytes, six stay unread, and four steps later
    the thread is in the wait for good. *)
Lemma stop_takes_effect_within_a_pass_sample :
  stuck (exec [Tick; Tick; Tick; Tick]
           (owner_stop
              (exec [Tick; Tick]
                 (spawn (decoder_on_small_pipe 1 1
                           (List.concat three_frames) tt))))).
Proof.
  destruct (stop_takes_effect_within_a_pass unit
              (exec [Tick; Tick]
                 (spawn (decoder_on_small_pipe 1 1
                           (List.concat three_frames) tt)))
              [Tick; Tick; Tick; Tick])
    as [(Hdone & _) | [(Hstuck & _) | (e & Hraised & _)]].
  - right. reflexivity.
  - cbn. apply le_n.
  - cbv in Hdone. discriminate Hdone.
  - exact Hstuck.
  - cbv in Hraised. discriminate Hraised.
Defined.

Lemma refused_put_ends_the_run_sample :
  exists out,
    run (decoder_on_full_queue 1 1 (List.concat three_frames) tt) =
      Some out /\
    items (processing_queue (outcome_state out)) = [] /\
    pending (stdout (decoder (outcome_state out))) = [x06; x07; x08] /\
    exception (outcome_state out) = Some queue_full.
Proof.
  destruct (refused_put_ends_the_run unit
              (decoder_on_full_queue 1 1 (List.concat three_frames) tt)
              [x00; x01; x02] [x03; x04; x05] [x06; x07; x08] queue_full)
    as (out & Hrun & Hitems & Hpend & Hexc & _).
  - reflexivity.
  - reflexivity.
  - vm_compute. discriminate.
  - intros bytes. reflexivity.
  - reflexivity.
  - reflexivity.
  - reflexivity.
  - reflexivity.
  - reflexivity.
  - exists out. repeat split; assumption.
Defined.

(** Two to the power 31 pixels each way and nothing in the stream: the read
    is refused, and the error is in the slot. *)
Lemma oversized_chunk_is_stored_sample :
  exists out,
    run (fresh_decoder (2 ^ 31) (2 ^ 31) [] tt) = Some out /\
    match out with Propagated _ _ => False | _ => True end /\
    exception (outcome_state out) = Some overflow_error.
Proof.
  destruct (oversized_chunk_is_stored unit
              (fresh_decoder (2 ^ 31) (2 ^ 31) [] tt))
    as (out & Hrun & Hkind & Hexc & _).
  - left. reflexivity.
  - exists out. repeat split; assumption.
Defined.
